(** * ImageMatch: the signature database ([signature_database.py])

    A shallow embedding of [SignatureCollection] and a verification of its
    word extraction, quantisation, record layout, candidate query and
    distance ranking.

    Conventions of the embedding.
    - numpy integer arrays are lists of [Z]; a value stored into an [int8]
      array goes through [int8], the two's complement wrap-around.
    - [np.linspace] is evaluated in binary64, as numpy does: the quotient
      and each product are rounded to nearest, ties to even
      ([Binary64]).  The floor of the exact points is kept beside it
      ([Np.linspace_exact]) for comparison.
    - The distance has two models.  [normalized_distance] evaluates the
      formula of the source over exact reals ([R]), keeping the special
      outcomes of a division by zero ([float64_value]); it serves for what
      does not depend on rounding.  [Float64.row_distance] evaluates it on
      integer rows with the kernel's binary64 numbers, and
      [find_matches_with] takes the distance routine as a parameter.
    - Python dictionaries (records, stored documents) are [gmap string value].
    - The MongoDB collection is the list of its documents, in store order.
      The [_id] field that the store adds to a document is left out: no
      method reads it and its name does not contain ['simple'].
    - A Python exception is [Raise e]; a normal return is [Ok v]. *)

From Stdlib Require Import ZArith List String Ascii Reals Lra Lia.
From Stdlib Require Floats.
From stdpp Require Import base option list gmap strings pretty.

Import ListNotations.
Local Open Scope string_scope.
Local Open Scope list_scope.
Local Open Scope Z_scope.

(** ** Exceptions *)

Inductive exception : Type :=
| TypeError
| ValueError
| AttributeError
| KeyError
| IndexError
| OperationFailure.

Inductive result (A : Type) : Type :=
| Ok (a : A)
| Raise (e : exception).

Arguments Ok {A} a.
Arguments Raise {A} e.

(** The error monad; [x ← m; f] is stdpp's bind notation. *)
#[global] Instance result_ret : MRet result := fun A a => Ok a.
#[global] Instance result_bind : MBind result := fun A B f m =>
  match m with
  | Ok a => f a
  | Raise e => Raise e
  end.

Fixpoint mapM {A B : Type} (f : A -> result B) (l : list A) : result (list B) :=
  match l with
  | [] => Ok []
  | a :: rest =>
      b ← f a;
      bs ← mapM f rest;
      Ok (b :: bs)
  end.

Definition succeeds {A : Type} (m : result A) : Prop := exists a, m = Ok a.
Definition fails {A : Type} (m : result A) : Prop := exists e, m = Raise e.

(** ** Binary64 arithmetic on non-negative rationals

    A non-negative binary64 number in the normal range is [m * 2^e] with a
    significand [m] of at most 53 bits; it is kept as the pair [(m, e)].
    The operations below are the ones [np.linspace] performs: a quotient of
    two integers, the product of an integer and a float, and the
    truncation of [astype('int')].  Overflow and subnormal numbers are out
    of reach of these operations on array lengths and are not modelled. *)

Module Binary64.

(** The integer nearest to [n / d], ties to the even one. *)
Definition rne (n d : Z) : Z :=
  let q := n / d in
  let r := n mod d in
  if 2 * r <? d then q
  else if d <? 2 * r then q + 1
  else if Z.even q then q else q + 1.

(** [floor (log2 (n / d))] for positive [n] and [d]. *)
Definition ilog2 (n d : Z) : Z :=
  let g := Z.log2 n - Z.log2 d in
  if 0 <=? g
  then (if d * 2 ^ g <=? n then g else g - 1)
  else (if d <=? n * 2 ^ (- g) then g else g - 1).

(** The binary64 number nearest to [n / d]: the exponent leaves 53 bits to
    the significand. *)
Definition round (n d : Z) : Z * Z :=
  if n =? 0 then (0, 0) else
  let e := ilog2 n d - 52 in
  if 0 <=? e then (rne n (d * 2 ^ e), e) else (rne (n * 2 ^ (- e)) d, e).

(** [i * x] for an integer [i] (exact as a float) and a float [x]. *)
Definition mul_int (i : Z) (x : Z * Z) : Z * Z :=
  if 0 <=? x.2 then round (i * x.1 * 2 ^ x.2) 1 else round (i * x.1) (2 ^ (- x.2)).

(** [astype('int')] of a non-negative float. *)
Definition trunc (x : Z * Z) : Z :=
  if 0 <=? x.2 then x.1 * 2 ^ x.2 else x.1 / 2 ^ (- x.2).

End Binary64.

(** ** numpy primitives used by the module *)

Module Np.

(** [len a], i.e. [a.shape[0]] of a one-dimensional array. *)
Definition len {A : Type} (a : list A) : Z := Z.of_nat (length a).

(** Conversion to [int8]: wrap-around into [-128, 127]. *)
Definition int8 (z : Z) : Z := (z + 128) mod 256 - 128.

Definition is_int8 (z : Z) : Prop := -128 <= z <= 127.

(** [np.linspace(0, stop, num, endpoint=False).astype('int')]: numpy
    computes the step [stop / num] and the points [i * step] in binary64
    and [astype('int')] truncates them. *)
Definition linspace_int (stop num : Z) : list Z :=
  (fun i : nat =>
     Binary64.trunc (Binary64.mul_int (Z.of_nat i) (Binary64.round stop num)))
    <$> seq 0 (Z.to_nat num).

(** The floors of the exact points [i * stop / num], the positions an
    evaluation without rounding gives.  Stated from the words of the
    specification ("even linear spacing over [0, L), floored"), to be
    compared with [linspace_int]. *)
Definition linspace_exact (stop num : Z) : list Z :=
  (fun i : nat => Z.of_nat i * stop / num) <$> seq 0 (Z.to_nat num).

(** [a[pos:]] and [a[pos:stop]] for non-negative [pos] and [stop]. *)
Definition slice_from {A : Type} (a : list A) (pos : Z) : list A :=
  drop (Z.to_nat pos) a.

Definition slice {A : Type} (a : list A) (pos stop : Z) : list A :=
  take (Z.to_nat (stop - pos)) (slice_from a pos).

(** [a.resize(k)] on a one-dimensional array: truncate, or extend with
    zeros. *)
Definition resize (k : Z) (a : list Z) : list Z :=
  take (Z.to_nat k) (a ++ replicate (Z.to_nat k) 0).

(** [np.zeros((n, k)).astype('int8')]. *)
Definition zeros (n k : Z) : list (list Z) :=
  replicate (Z.to_nat n) (replicate (Z.to_nat k) 0).

(** [a[mask] = v] where [mask] is the element-wise test [p]. *)
Definition assign_where (p : Z -> bool) (v : Z) (a : list Z) : list Z :=
  (fun x => if p x then v else x) <$> a.

End Np.

(** ** Word extraction and quantisation (static methods) *)

(** The word written into row [i] for start position [pos]. *)
Definition word_at (array : list Z) (k pos : Z) : list Z :=
  if pos + k <=? Np.len array
  then Np.int8 <$> Np.slice array pos (pos + k)
  else Np.int8 <$> Np.resize k (Np.slice_from array pos).

(** The loop [for i, pos in enumerate(word_positions): words[i] = ...]. *)
Fixpoint fill_words (array : list Z) (k : Z) (i : nat) (word_positions : list Z)
    (words : list (list Z)) : list (list Z) :=
  match word_positions with
  | [] => words
  | pos :: rest =>
      fill_words array k (S i) rest (<[i := word_at array k pos]> words)
  end.

(** [get_words(array, k, N)].  A negative [N] or [k] is refused by numpy
    itself ([np.linspace] / [np.zeros]) with a [ValueError]. *)
Definition get_words (array : list Z) (k N : Z) : result (list (list Z)) :=
  if N <? 0 then Raise ValueError else
  let word_positions := Np.linspace_int (Np.len array) N in
  if k >? Np.len array then Raise ValueError else
  if Np.len word_positions >? Np.len array then Raise ValueError else
  if k <? 0 then Raise ValueError else
  let words := Np.zeros N k in
  Ok (fill_words array k 0 word_positions words).

(** [max_contrast] on one word (a one-dimensional array): the two masked
    assignments, in the order of the source. *)
Definition quantize (word : list Z) : list Z :=
  Np.assign_where (fun x => x <? 0) (-1)
    (Np.assign_where (fun x => x >? 0) 1 word).

(** [max_contrast(array)] on the two-dimensional array of words.  The
    function mutates its argument and returns [None]; the model returns the
    array after the call. *)
Definition max_contrast (array : list (list Z)) : list (list Z) :=
  Np.assign_where (fun x => x <? 0) (-1)
    <$> (Np.assign_where (fun x => x >? 0) 1 <$> array).

(** ** Strings *)

(** [s.find(sub)]: the lowest index at which [sub] occurs in [s], or [-1]. *)
Fixpoint str_find_from (sub s : string) (i : Z) : Z :=
  if String.prefix sub s then i
  else match s with
       | EmptyString => -1
       | String _ s' => str_find_from sub s' (i + 1)
       end.

Definition str_find (s sub : string) : Z := str_find_from sub s 0.

(** [''.join(['simple_word_', str(i)])]; [pretty] prints the decimal
    representation of an integer, as [str] does. *)
Definition slot_name (i : Z) : string := "simple_word_" +:+ pretty i.

(** ** Documents and the store *)

(** The values held by the fields of a record. *)
Inductive value : Type :=
| VStr (s : string)
| VInts (l : list Z).

#[global] Instance value_eq_dec : EqDecision value.
Proof. solve_decision. Defined.

Abbreviation document := (gmap string value).

(** [d.keys()] *)
Definition keys (d : document) : list string := fst <$> map_to_list d.

(** The index-discovery rule shared by [__init__] and [add_images]:
    [[field for field in doc.keys() if field.find('simple') > -1]]. *)
Definition discover_index_names (doc : document) : list string :=
  List.filter (fun field => str_find field "simple" >? -1) (keys doc).

(** [collection.find({'$or': clauses})] where every clause is a field
    equality [{name: v}]: the documents satisfying at least one clause, in
    store order.  [find] only builds a cursor; the server refuses an empty
    list of clauses once the cursor is read ([list_cursor] below). *)
Definition matches_clause (d : document) (clause : string * value) : bool :=
  bool_decide (d !! clause.1 = Some clause.2).

Definition find_or (clauses : list (string * value)) (docs : list document)
    : list document :=
  List.filter (fun d => existsb (matches_clause d) clauses) docs.

(** [collection.find_one({}).keys()] filtered by the discovery rule;
    [find_one] returns [None] on an empty collection and [None.keys()]
    raises. *)
Definition find_one_index_names (docs : list document) : result (list string) :=
  match head docs with
  | Some doc => Ok (discover_index_names doc)
  | None => Raise AttributeError
  end.

(** ** Python values reaching the constructor *)

(** An argument of [__init__], with its Python 2 type: [int], [long],
    [bool], [float] (a finite real), [str], [NoneType],
    [pymongo.collection.Collection] (with the documents it holds), or a
    [pymongo] object of another class. *)
Inductive pyobj : Type :=
| PyInt (z : Z)
| PyLong (z : Z)
| PyBool (b : bool)
| PyFloat (x : R)
| PyStr (s : string)
| PyNone
| PyCollection (docs : list document)
| PyDatabase.

(** ** The object *)

(** The attributes of a [SignatureCollection].  [self_collection] is the
    content of the wrapped MongoDB collection.  [self_index_names] is [None]
    while the attribute [index_names] has not been assigned. *)
Record SignatureCollection : Type := {
  self_collection : list document;
  self_k : Z;
  self_N : Z;
  self_distance_cutoff : R;
  self_index_names : option (list string)
}.

#[global] Instance Rlt_decision (x y : R) : Decision (x < y)%R := Rlt_dec x y.

(** [SignatureCollection.__init__(collection, k, N, distance_cutoff)] *)
Definition init (collection k N distance_cutoff : pyobj)
    : result SignatureCollection :=
  match collection with
  | PyCollection docs =>
      match k with
      | PyInt k' =>
          match N with
          | PyInt N' =>
              match distance_cutoff with
              | PyFloat cutoff =>
                  if decide (cutoff < 0)%R then Raise ValueError else
                  if Np.len docs >? 0 then
                    names ← find_one_index_names docs;
                    Ok {| self_collection := docs; self_k := k'; self_N := N';
                          self_distance_cutoff := cutoff;
                          self_index_names := Some names |}
                  else
                    Ok {| self_collection := docs; self_k := k'; self_N := N';
                          self_distance_cutoff := cutoff;
                          self_index_names := None |}
              | _ => Raise TypeError
              end
          | _ => Raise TypeError
          end
      | _ => Raise TypeError
      end
  | _ => Raise TypeError
  end.

(** [range(0, stop, step)] *)
Fixpoint range_from (fuel : nat) (i stop step : Z) : list Z :=
  match fuel with
  | O => []
  | S fuel' => if i <? stop then i :: range_from fuel' (i + step) stop step else []
  end.

Definition range_step (stop step : Z) : result (list Z) :=
  if step =? 0 then Raise ValueError
  else if step <? 0 then Ok []
  else Ok (range_from (Z.to_nat stop) 0 stop step).

(** [record[name]] *)
Definition getitem (d : document) (name : string) : result value :=
  match d !! name with
  | Some v => Ok v
  | None => Raise KeyError
  end.

Section Methods.

(** The external signature generator, [self.gis.generate_signature]. *)
Variable generate_signature : string -> list Z.

(** The paths of the images of a directory,
    [map(lambda x: join(image_dir, x), listdir(image_dir))]. *)
Variable image_paths_of : string -> list string.

(** The loop [for i in range(self.N): record['simple_word_' + str(i)] =
    words[i].tolist()]. *)
Fixpoint set_word_slots (words : list (list Z)) (indices : list nat)
    (record : document) : result document :=
  match indices with
  | [] => Ok record
  | i :: rest =>
      match words !! i with
      | Some w =>
          set_word_slots words rest
            (<[slot_name (Z.of_nat i) := VInts w]> record)
      | None => Raise IndexError
      end
  end.

(** [make_record(self, path)] *)
Definition make_record (self : SignatureCollection) (path : string)
    : result document :=
  let record : document := ∅ in
  let record := <["path" := VStr path]> record in
  let signature := generate_signature path in
  let record := <["signature" := VInts signature]> record in
  words ← get_words signature (self_k self) (self_N self);
  let words := max_contrast words in
  set_word_slots words (seq 0 (Z.to_nat (self_N self))) record.

(** The record of [make_record] before its word slots are set. *)
Definition record_base (path : string) : document :=
  <["signature" := VInts (generate_signature path)]>
    (<["path" := VStr path]> (∅ : document)).

(** [add_image(self, path)] *)
Definition add_image (self : SignatureCollection) (path : string)
    : result SignatureCollection :=
  record ← make_record self path;
  Ok {| self_collection := self_collection self ++ [record];
        self_k := self_k self; self_N := self_N self;
        self_distance_cutoff := self_distance_cutoff self;
        self_index_names := self_index_names self |}.

(** The insertion loop of [add_images]: one bulk insert per block. *)
Fixpoint insert_blocks (self : SignatureCollection) (image_paths : list string)
    (block_size : Z) (starts : list Z) (docs : list document)
    : result (list document) :=
  match starts with
  | [] => Ok docs
  | i :: rest =>
      records ← mapM (make_record self)
                  (Np.slice image_paths i (i + block_size));
      insert_blocks self image_paths block_size rest (docs ++ records)
  end.

(** [add_images(self, image_dir, drop_collection, insert_block_size)];
    [verbose] only prints and [limit] is unused.  [Ok] holds the object
    after a call that returns.  A call that raises has already emptied the
    collection (with [drop_collection]) and committed the blocks inserted
    before the exception; [Raise] keeps the exception only.  The closing
    [create_index] calls change no document and no attribute and are left
    out. *)
Definition add_images (self : SignatureCollection) (image_dir : string)
    (drop_collection : bool) (insert_block_size : Z)
    : result SignatureCollection :=
  let docs := if drop_collection then [] else self_collection self in
  let image_paths := image_paths_of image_dir in
  starts ← range_step (Np.len image_paths) insert_block_size;
  docs ← insert_blocks self image_paths insert_block_size starts docs;
  names ← find_one_index_names docs;
  Ok {| self_collection := docs;
        self_k := self_k self; self_N := self_N self;
        self_distance_cutoff := self_distance_cutoff self;
        self_index_names := Some names |}.

(** [find_word_matches(self, record)].  Reading [self.index_names] before
    it was ever assigned raises [AttributeError]; [record[name]] raises
    [KeyError] on a missing field. *)
Definition find_word_matches (self : SignatureCollection) (record : document)
    : result (list document) :=
  match self_index_names self with
  | None => Raise AttributeError
  | Some index_names =>
      clauses ← mapM (fun name => v ← getitem record name; Ok (name, v))
                  index_names;
      Ok (find_or clauses (self_collection self))
  end.

(** [list(curs)] on the cursor of [find_word_matches]: reading the cursor
    sends the query, and the server refuses a [$or] without clauses.  The
    query has one clause per index name, so it has none exactly when
    [index_names] is the empty list. *)
Definition list_cursor (self : SignatureCollection) (t : list document)
    : result (list document) :=
  match self_index_names self with
  | Some [] => Raise OperationFailure
  | _ => Ok t
  end.

End Methods.

(** ** Normalised distance *)

(** The outcome of a [float64] division: a real number, or the infinity or
    the not-a-number that numpy returns for a zero divisor (with a warning,
    not an exception).  The dividends of this module are norms, hence not
    negative. *)
Inductive float64_value : Type :=
| Finite (x : R)
| PosInf
| NaN.

#[global] Instance Req_decision : EqDecision R := Req_dec_T.

Definition float_div (x y : R) : float64_value :=
  if decide (y = 0%R)
  then (if decide (x = 0%R) then NaN else PosInf)
  else Finite (x / y).

(** [d < cutoff] for a finite [cutoff]: false on infinity and on
    not-a-number. *)
Definition float_lt (d : float64_value) (cutoff : R) : Prop :=
  match d with
  | Finite x => (x < cutoff)%R
  | PosInf | NaN => False
  end.

#[global] Instance float_lt_decision (d : float64_value) (cutoff : R) :
  Decision (float_lt d cutoff).
Proof. destruct d; simpl; apply _. Defined.

(** An array element type: its subtraction and its conversion to [float64]
    (which [np.linalg.norm] applies to an integer array before squaring). *)
Record dtype : Type := {
  elt : Type;
  sub : elt -> elt -> elt;
  as_float : elt -> R
}.

Definition float64 : dtype :=
  {| elt := R; sub := Rminus; as_float := fun x => x |}.

Definition int8_t : dtype :=
  {| elt := Z; sub := fun a b => Np.int8 (a - b); as_float := IZR |}.

Section Distance.

Variable T : dtype.

Definition sum_squares (v : list (elt T)) : R :=
  fold_right (fun x acc => (as_float T x * as_float T x + acc)%R) 0%R v.

(** [np.linalg.norm(v)] of a one-dimensional array (one row of
    [np.linalg.norm(a, axis=1)]), in exact arithmetic. *)
Definition norm (v : list (elt T)) : R := sqrt (sum_squares v).

(** One row of [vec - target_array], with numpy's broadcasting of an axis
    of length one. *)
Definition broadcast_sub (vec row : list (elt T)) : result (list (elt T)) :=
  if decide (length vec = length row)
  then Ok (zip_with (sub T) vec row)
  else match vec, row with
       | [v], _ => Ok ((fun b => sub T v b) <$> row)
       | _, [b] => Ok ((fun v => sub T v b) <$> vec)
       | _, _ => Raise ValueError
       end.

(** The entry of [normalized_distance] for one row [b] of [target_array]. *)
Definition row_distance (vec b : list (elt T)) : result float64_value :=
  diff ← broadcast_sub vec b;
  Ok (float_div (norm diff) (norm vec + norm b)).

(** [normalized_distance(target_array, vec)] for a two-dimensional
    [target_array], given by its rows. *)
Definition normalized_distance (target_array : list (list (elt T)))
    (vec : list (elt T)) : result (list float64_value) :=
  mapM (row_distance vec) target_array.

End Distance.

Arguments sum_squares {T} v.
Arguments norm {T} v.
Arguments broadcast_sub {T} vec row.
Arguments row_distance {T} vec b.
Arguments normalized_distance {T} target_array vec.

(** ** The same computations on the kernel's binary64 numbers

    [PrimFloat] is IEEE 754 binary64 with round-to-nearest-even.  These
    definitions run the expressions of the source on it; they serve to
    evaluate the code at concrete inputs and to check [Binary64] against
    the hardware arithmetic. *)

Module Float64.

Definition of_Z (z : Z) : PrimFloat.float :=
  if z <? 0 then PrimFloat.opp (PrimFloat.of_uint63 (Uint63.of_Z (- z)))
  else PrimFloat.of_uint63 (Uint63.of_Z z).

(** [astype('int')] of a finite float. *)
Definition trunc (f : PrimFloat.float) : Z :=
  match FloatOps.Prim2SF f with
  | SpecFloat.S754_finite s m e =>
      let v := if 0 <=? e then Z.pos m * 2 ^ e else Z.pos m / 2 ^ (- e) in
      if s then - v else v
  | _ => 0
  end.

(** [np.linspace(0, stop, num, endpoint=False).astype('int')]. *)
Definition linspace_int (stop num : Z) : list Z :=
  (fun i : nat =>
     trunc (PrimFloat.mul (of_Z (Z.of_nat i)) (PrimFloat.div (of_Z stop) (of_Z num))))
    <$> seq 0 (Z.to_nat num).

(** The sum of the squares of an integer row.  numpy adds the squares as
    floats; on integers every partial sum below [2^53] is exact, in any
    order of summation, so the sum is taken in [Z]. *)
Definition sum_squares (v : list Z) : Z := foldr (fun x acc => x * x + acc) 0 v.

(** [np.linalg.norm(v)] of an integer row. *)
Definition norm (v : list Z) : PrimFloat.float :=
  PrimFloat.sqrt (of_Z (sum_squares v)).

(** The entry of [normalized_distance] for one row [b] of an [int8]
    [target_array]: the difference wraps around in [int8], the norms, their
    sum and the quotient are rounded. *)
Definition row_distance (vec b : list Z) : result PrimFloat.float :=
  diff ← broadcast_sub (T := int8_t) vec b;
  Ok (PrimFloat.div (norm diff) (PrimFloat.add (norm vec) (norm b))).

(** The number that a float is.  The sign of an infinity is dropped: the
    quotient of two norms is never negative. *)
Definition to_value (f : PrimFloat.float) : float64_value :=
  match FloatOps.Prim2SF f with
  | SpecFloat.S754_zero _ => Finite 0
  | SpecFloat.S754_finite s m e =>
      let x := if 0 <=? e then IZR (Z.pos m * 2 ^ e)
               else (IZR (Z.pos m) / IZR (2 ^ (- e)))%R in
      Finite (if s then (- x)%R else x)
  | SpecFloat.S754_infinity _ => PosInf
  | SpecFloat.S754_nan => NaN
  end.

(** [normalized_distance(target_array, vec)] on [int8] arrays. *)
Definition normalized_distance (target_array : list (list Z)) (vec : list Z)
    : result (list float64_value) :=
  mapM (fun b => d ← row_distance vec b; Ok (to_value d)) target_array.



End Float64.

(** Elements whose differences fit [int8]. *)
Definition small (z : Z) : Prop := -64 <= z <= 63.

(** [np.array(rows, dtype='int8')] on the signatures of the candidates.  A
    ragged list is refused.  An empty list gives a one-dimensional array, on
    which the [axis=1] of [normalized_distance] is out of bounds, so the
    caller fails; the same holds when an entry is not a list. *)
Definition signature_array (rows : list value) : result (list (list Z)) :=
  rows ← mapM (fun v => match v with
                         | VInts l => Ok (Np.int8 <$> l)
                         | VStr _ => Raise ValueError
                         end) rows;
  match rows with
  | [] => Raise ValueError
  | r :: rest =>
      if forallb (fun r' => Nat.eqb (length r') (length r)) rest
      then Ok rows
      else Raise ValueError
  end.

(** The signature and the path that a stored document holds. *)
Definition doc_signature (doc : document) : list Z :=
  match doc !! "signature" with
  | Some (VInts l) => l
  | _ => []
  end.

Definition doc_path (doc : document) : value :=
  default (VStr "") (doc !! "path").

Section Ranking.

Variable generate_signature : string -> list Z.

(** The distance of a candidate to the query and the candidate's path: both
    signatures converted to [int8], subtracted in [int8], normed and divided
    in exact arithmetic. *)
Definition candidate_score (path : string) (doc : document)
    : float64_value * value :=
  let vec := Np.int8 <$> generate_signature path in
  let b := Np.int8 <$> doc_signature doc in
  (float_div (norm (T := int8_t) (zip_with (sub int8_t) vec b))
     (norm (T := int8_t) vec + norm (T := int8_t) b),
   doc_path doc).

(** The first part of [find_matches]: the candidates of [path], each with
    its distance to the query ([zip(d, paths)] before the cutoff). *)
Definition candidate_distances (self : SignatureCollection) (path : string)
    : result (list (float64_value * value)) :=
  record ← make_record generate_signature self path;
  curs ← find_word_matches self record;
  t ← list_cursor self curs;
  sig_fields ← mapM (fun x => getitem x "signature") t;
  sigs ← signature_array sig_fields;
  paths ← mapM (fun x => getitem x "path") t;
  query_field ← getitem record "signature";
  vec ← match query_field with
        | VInts l => Ok (Np.int8 <$> l)
        | VStr _ => Raise ValueError
        end;
  d ← normalized_distance (T := int8_t) sigs vec;
  Ok (combine d paths).

(** [find_matches(self, path)]: [w = d < self.distance_cutoff] and
    [zip(d[w], paths[w])], on the exact distances. *)
Definition find_matches (self : SignatureCollection) (path : string)
    : result (list (float64_value * value)) :=
  scored ← candidate_distances self path;
  Ok (List.filter
        (fun dp => bool_decide (float_lt dp.1 (self_distance_cutoff self)))
        scored).

End Ranking.

(** [find_matches] with the distance routine as a parameter: [distance]
    stands for the call of [self.normalized_distance] on the [int8] array of
    the candidates' signatures and the [int8] query signature.  With
    [normalized_distance] for [distance] this is [find_matches] above; with
    [Float64.normalized_distance] it is the binary64 run. *)
Section RankingWith.

Variable generate_signature : string -> list Z.
Variable distance : list (list Z) -> list Z -> result (list float64_value).

Definition candidate_distances_with (self : SignatureCollection) (path : string)
    : result (list (float64_value * value)) :=
  record ← make_record generate_signature self path;
  curs ← find_word_matches self record;
  t ← list_cursor self curs;
  sig_fields ← mapM (fun x => getitem x "signature") t;
  sigs ← signature_array sig_fields;
  paths ← mapM (fun x => getitem x "path") t;
  query_field ← getitem record "signature";
  vec ← match query_field with
        | VInts l => Ok (Np.int8 <$> l)
        | VStr _ => Raise ValueError
        end;
  d ← distance sigs vec;
  Ok (combine d paths).

Definition find_matches_with (self : SignatureCollection) (path : string)
    : result (list (float64_value * value)) :=
  scored ← candidate_distances_with self path;
  Ok (List.filter
        (fun dp => bool_decide (float_lt dp.1 (self_distance_cutoff self)))
        scored).

End RankingWith.

(** ** Reachable objects *)

Section Reachable.

Variable generate_signature : string -> list Z.
Variable image_paths_of : string -> list string.

(** The states an object goes through: constructed by [__init__], then
    modified by [add_image] and [add_images]. *)
Inductive reachable : SignatureCollection -> Prop :=
| reachable_init (collection k N distance_cutoff : pyobj)
      (self : SignatureCollection) :
    init collection k N distance_cutoff = Ok self ->
    reachable self
| reachable_add_image (self self' : SignatureCollection) (path : string) :
    reachable self ->
    add_image generate_signature self path = Ok self' ->
    reachable self'
| reachable_add_images (self self' : SignatureCollection)
      (image_dir : string) (drop_collection : bool) (insert_block_size : Z) :
    reachable self ->
    add_images generate_signature image_paths_of self image_dir
      drop_collection insert_block_size = Ok self' ->
    reachable self'.

End Reachable.

(** ** Numbers *)

(** The numeric Python values, [int], [long], [bool] (a subclass of [int])
    and [float], with the number they denote. *)
Definition numeric_value (v : pyobj) : option R :=
  match v with
  | PyInt z | PyLong z => Some (IZR z)
  | PyBool b => Some (if b then 1%R else 0%R)
  | PyFloat x => Some x
  | _ => None
  end.

(** ** A small collection *)

Module Example.

Definition signature : list Z := [2; -1; 0; 3; -4; 1; 0; 2].

Definition generate_signature (path : string) : list Z := signature.

(** A signature of length 30: [0, 1, ..., 29]. *)
Definition ramp : list Z := Z.of_nat <$> seq 0 30.

Definition image_paths_of (image_dir : string) : list string :=
  ["a.png"; "b.png"].

Definition stored : document :=
  <["simple_word_3" := VInts [0; 1; 0]]>
    (<["simple_word_2" := VInts [-1; 1; 0]]>
       (<["simple_word_1" := VInts [0; 1; -1]]>
          (<["simple_word_0" := VInts [1; -1; 0]]>
             (<["signature" := VInts signature]>
                (<["path" := VStr "a.png"]> ∅))))).

(** The record of a query image with the same signature. *)
Definition query : document := <["path" := VStr "q.png"]> stored.

Definition self : SignatureCollection :=
  {| self_collection := [stored];
     self_k := 3;
     self_N := 4;
     self_distance_cutoff := (6 / 10)%R;
     self_index_names := Some (discover_index_names stored) |}.

End Example.

(** ** An image that shares no word with the stored one *)

Module Example2.

Definition other_signature : list Z := [-2; 1; 1; -3; 4; -1; -1; -2].

(** The generator of [Example], except on ["z.png"]. *)
Definition generate_signature (path : string) : list Z :=
  if String.eqb path "z.png" then other_signature else Example.signature.

(** The record of ["z.png"] for [k = 3] and [N = 4]. *)
Definition query : document :=
  <["simple_word_3" := VInts [-1; -1; 0]]>
    (<["simple_word_2" := VInts [1; -1; -1]]>
       (<["simple_word_1" := VInts [1; -1; 1]]>
          (<["simple_word_0" := VInts [-1; 1; 1]]>
             (<["signature" := VInts other_signature]>
                (<["path" := VStr "z.png"]> ∅))))).

(** An object on the collection of [Example] with two word slots only,
    and the record it makes for ["q.png"]. *)
Definition narrow : SignatureCollection :=
  {| self_collection := [Example.stored];
     self_k := 3;
     self_N := 2;
     self_distance_cutoff := (6 / 10)%R;
     self_index_names := Some (discover_index_names Example.stored) |}.

Definition narrow_query : document :=
  <["simple_word_1" := VInts [-1; 1; 0]]>
    (<["simple_word_0" := VInts [1; -1; 0]]>
       (<["signature" := VInts Example.signature]>
          (<["path" := VStr "q.png"]> ∅))).

(** The object of [Example] with a cutoff of zero. *)
Definition strict : SignatureCollection :=
  {| self_collection := [Example.stored];
     self_k := 3;
     self_N := 4;
     self_distance_cutoff := 0%R;
     self_index_names := Some (discover_index_names Example.stored) |}.

(** An object with [N = 0]: its records have no word slot, and the index
    names that [add_images] discovers on them are the empty list. *)
Definition wordless_record : document :=
  <["signature" := VInts Example.signature]> (<["path" := VStr "a.png"]> ∅).

Definition wordless : SignatureCollection :=
  {| self_collection := [wordless_record];
     self_k := 3;
     self_N := 0;
     self_distance_cutoff := (6 / 10)%R;
     self_index_names := Some [] |}.

End Example2.

(** A stored signature [[3, 2]] and a query [[9, 6]], three times as long:
    their distance is [sqrt 52 / (sqrt 117 + sqrt 13)], which is [1/2], the
    cutoff of this object. *)
Module Boundary.

Definition generate_signature (path : string) : list Z :=
  if decide (path = "q.png") then [9; 6] else [3; 2].

Definition stored : document :=
  <["simple_word_0" := VInts [1]]>
    (<["signature" := VInts [3; 2]]> (<["path" := VStr "s.png"]> ∅)).

Definition query : document :=
  <["simple_word_0" := VInts [1]]>
    (<["signature" := VInts [9; 6]]> (<["path" := VStr "q.png"]> ∅)).

Definition self : SignatureCollection :=
  {| self_collection := [stored];
     self_k := 1;
     self_N := 1;
     self_distance_cutoff := 1 / 2;
     self_index_names := Some ["simple_word_0"] |}.

End Boundary.

(** * Verification *)

(** ** Arrays and slices *)

Lemma int8_id (z : Z) : Np.is_int8 z -> Np.int8 z = z.
Proof.
  unfold Np.is_int8, Np.int8. intros Hz.
  rewrite Z.mod_small by lia. lia.
Qed.


Lemma int8_fmap_id (a : list Z) : Forall Np.is_int8 a -> Np.int8 <$> a = a.
Proof.
  induction 1 as [|x a Hx _ IH]; [reflexivity|].
  rewrite fmap_cons, IH, int8_id by assumption. reflexivity.
Qed.

Lemma Forall_int8_take (a : list Z) (n : nat) :
  Forall Np.is_int8 a -> Forall Np.is_int8 (take n a).
Proof. apply Forall_take. Qed.

Lemma Forall_int8_drop (a : list Z) (n : nat) :
  Forall Np.is_int8 a -> Forall Np.is_int8 (drop n a).
Proof. apply Forall_drop. Qed.

Lemma length_slice_from {A : Type} (a : list A) (pos : Z) :
  0 <= pos -> Np.len (Np.slice_from a pos) = Z.max 0 (Np.len a - pos).
Proof.
  intros Hpos. unfold Np.len, Np.slice_from. rewrite length_drop. lia.
Qed.

Lemma length_slice {A : Type} (a : list A) (pos k : Z) :
  0 <= pos -> 0 <= k -> pos + k <= Np.len a ->
  Np.len (Np.slice a pos (pos + k)) = k.
Proof.
  intros Hpos Hk Hle. unfold Np.slice.
  pose proof (length_slice_from a pos Hpos) as Hd. unfold Np.len in *.
  rewrite length_take. lia.
Qed.

Lemma length_resize (k : Z) (a : list Z) :
  0 <= k -> Np.len (Np.resize k a) = k.
Proof.
  intros Hk. unfold Np.len, Np.resize.
  rewrite length_take, length_app, length_replicate. lia.
Qed.

(** Enlarging an array pads it with zeros on the right. *)
Lemma resize_pad (k : Z) (a : list Z) :
  Np.len a <= k ->
  Np.resize k a = a ++ replicate (Z.to_nat (k - Np.len a)) 0.
Proof.
  unfold Np.len, Np.resize. intros Hle.
  rewrite take_app, take_ge by lia.
  rewrite take_replicate. do 2 f_equal. lia.
Qed.

(** ** Start positions *)

Lemma length_linspace_int (stop num : Z) :
  length (Np.linspace_int stop num) = Z.to_nat num.
Proof. unfold Np.linspace_int. rewrite length_fmap, length_seq. reflexivity. Qed.

Lemma lookup_linspace_int (stop num : Z) (i : nat) (pos : Z) :
  Np.linspace_int stop num !! i = Some pos <->
  pos = Binary64.trunc (Binary64.mul_int (Z.of_nat i) (Binary64.round stop num))
  /\ Z.of_nat i < num.
Proof.
  unfold Np.linspace_int. rewrite list_lookup_fmap.
  destruct (seq 0 (Z.to_nat num) !! i) as [j|] eqn:Hj; simpl.
  - apply lookup_seq in Hj as [-> Hlt]. simpl.
    split; [intros [= <-]; split; [reflexivity | lia] | intros [-> _]; reflexivity].
  - split; [discriminate|]. intros [_ Hlt].
    rewrite lookup_seq_lt in Hj by lia. discriminate.
Qed.

Lemma lookup_linspace_exact (stop num : Z) (i : nat) (pos : Z) :
  Np.linspace_exact stop num !! i = Some pos <->
  pos = Z.of_nat i * stop / num /\ Z.of_nat i < num.
Proof.
  unfold Np.linspace_exact. rewrite list_lookup_fmap.
  destruct (seq 0 (Z.to_nat num) !! i) as [j|] eqn:Hj; simpl.
  - apply lookup_seq in Hj as [-> Hlt]. simpl.
    split; [intros [= <-]; split; [reflexivity | lia] | intros [-> _]; reflexivity].
  - split; [discriminate|]. intros [_ Hlt].
    rewrite lookup_seq_lt in Hj by lia. discriminate.
Qed.

(** *** The floors of the exact points *)

Lemma linspace_point_floor (stop num i pos : Z) :
  0 < num -> pos = i * stop / num ->
  pos * num <= i * stop < (pos + 1) * num.
Proof.
  intros Hnum ->.
  pose proof (Z.mul_div_le (i * stop) num Hnum).
  pose proof (Z.mul_succ_div_gt (i * stop) num Hnum).
  lia.
Qed.

Lemma linspace_point_bounds (stop num i : Z) :
  1 <= stop -> 0 <= i < num -> 0 <= i * stop / num < stop.
Proof.
  intros Hstop Hi. split.
  - apply Z.div_pos; nia.
  - apply Z.div_lt_upper_bound; nia.
Qed.

Lemma linspace_point_mono (stop num i j : Z) :
  0 <= stop -> 0 < num -> i <= j -> i * stop / num <= j * stop / num.
Proof. intros Hstop Hnum Hij. apply Z.div_le_mono; nia. Qed.

(** With no more points than elements, consecutive floors differ. *)
Lemma linspace_point_strict (stop num i : Z) :
  0 < num <= stop -> i * stop / num < (i + 1) * stop / num.
Proof.
  intros Hnum.
  assert (i * stop / num + 1 <= (i + 1) * stop / num); [|lia].
  rewrite <- (Z.div_add (i * stop) 1 num) by lia.
  apply Z.div_le_mono; nia.
Qed.

(** *** Rounding to binary64 *)

Lemma rne_spec (n d : Z) :
  0 <= n -> 0 < d ->
  0 <= Binary64.rne n d /\ - d <= 2 * (Binary64.rne n d * d - n) <= d.
Proof.
  intros Hn Hd. unfold Binary64.rne.
  pose proof (Z.div_mod n d ltac:(lia)) as Hdm.
  pose proof (Z.mod_pos_bound n d Hd) as Hr.
  assert (0 <= n / d) by (apply Z.div_pos; lia).
  repeat case_match; try apply Z.ltb_lt in H0; try apply Z.ltb_ge in H0;
    try apply Z.ltb_lt in H1; try apply Z.ltb_ge in H1; split; nia.
Qed.

Lemma pow2_pos (e : Z) : 0 <= e -> 0 < 2 ^ e.
Proof. intros. apply Z.pow_pos_nonneg; lia. Qed.

Lemma ilog2_lower (n d : Z) :
  0 < n -> 0 < d ->
  (0 <= Binary64.ilog2 n d -> d * 2 ^ Binary64.ilog2 n d <= n) /\
  (Binary64.ilog2 n d < 0 -> d <= n * 2 ^ (- Binary64.ilog2 n d)).
Proof.
  intros Hn Hd. unfold Binary64.ilog2.
  destruct (Z.log2_spec n Hn) as [Hn1 Hn2].
  destruct (Z.log2_spec d Hd) as [Hd1 Hd2].
  pose proof (Z.log2_nonneg n) as Hln. pose proof (Z.log2_nonneg d) as Hld.
  set (ln := Z.log2 n) in *. set (ld := Z.log2 d) in *.
  rewrite <- Z.add_1_r in Hn2, Hd2.
  destruct (Z.leb_spec 0 (ln - ld)) as [Hg|Hg].
  - destruct (Z.leb_spec (d * 2 ^ (ln - ld)) n) as [Ht|Ht].
    + split; [intros _; exact Ht | lia].
    + destruct (Z.eq_dec (ln - ld) 0) as [H0|H0].
      * split; [lia|]. intros _.
        replace (- (ln - ld - 1)) with 1 by lia.
        assert (ln = ld) as -> by lia.
        rewrite Z.pow_add_r in Hd2 by lia. lia.
      * split; [|lia]. intros _.
        assert (2 ^ ln = 2 ^ (ld + 1) * 2 ^ (ln - ld - 1)) as Heq
          by (rewrite <- Z.pow_add_r by lia; f_equal; lia).
        pose proof (pow2_pos (ln - ld - 1) ltac:(lia)). nia.
  - destruct (Z.leb_spec d (n * 2 ^ (- (ln - ld)))) as [Ht|Ht].
    + split; [lia | intros _; exact Ht].
    + split; [lia|]. intros _.
      assert (2 ^ (ld + 1) = 2 ^ ln * 2 ^ (- (ln - ld - 1))) as Heq
        by (rewrite <- Z.pow_add_r by lia; f_equal; lia).
      pose proof (pow2_pos (- (ln - ld - 1)) ltac:(lia)). nia.
Qed.

Lemma round_zero (d : Z) : Binary64.round 0 d = (0, 0).
Proof. reflexivity. Qed.

Lemma round_nonneg (n d : Z) : 0 <= n -> 0 < d -> 0 <= (Binary64.round n d).1.
Proof.
  intros Hn Hd. unfold Binary64.round.
  destruct (n =? 0); [simpl; lia|].
  destruct (Z.leb_spec 0 (Binary64.ilog2 n d - 52)) as [He|He]; simpl.
  - apply rne_spec; [lia|]. pose proof (pow2_pos _ He). nia.
  - apply rne_spec; [|lia]. pose proof (pow2_pos (- (Binary64.ilog2 n d - 52)) ltac:(lia)). nia.
Qed.

Lemma round_spec (n d : Z) :
  0 < n -> 0 < d -> n < 2 ^ 52 * d ->
  exists m e, Binary64.round n d = (m, e) /\ e < 0 /\ 0 <= m /\
    2 ^ 52 * d <= n * 2 ^ (- e) /\
    - d <= 2 * (m * d - n * 2 ^ (- e)) <= d.
Proof.
  intros Hn Hd Hlt. unfold Binary64.round.
  destruct (Z.eqb_spec n 0) as [?|_]; [lia|].
  destruct (ilog2_lower n d Hn Hd) as [Hlo1 Hlo2].
  set (g := Binary64.ilog2 n d) in *.
  assert (g < 52) as Hg.
  { destruct (Z.lt_ge_cases g 52) as [?|Hge]; [done|]. exfalso.
    specialize (Hlo1 ltac:(lia)).
    assert (2 ^ 52 <= 2 ^ g) by (apply Z.pow_le_mono_r; lia). nia. }
  destruct (Z.leb_spec 0 (g - 52)) as [?|He]; [lia|].
  eexists _, _. split; [reflexivity|].
  pose proof (pow2_pos (- (g - 52)) ltac:(lia)) as HT.
  split; [lia|].
  assert (2 ^ 52 * d <= n * 2 ^ (- (g - 52))) as Hlow.
  { destruct (Z.lt_ge_cases g 0) as [Hneg|Hpos].
    - specialize (Hlo2 Hneg).
      replace (- (g - 52)) with (52 + - g) by lia.
      rewrite Z.pow_add_r by lia. nia.
    - specialize (Hlo1 Hpos).
      assert (2 ^ 52 = 2 ^ g * 2 ^ (- (g - 52))) as ->
        by (rewrite <- Z.pow_add_r by lia; f_equal; lia).
      nia. }
  destruct (rne_spec (n * 2 ^ (- (g - 52))) d ltac:(nia) Hd) as [Hm Herr].
  repeat split; try lia.
Qed.

(** The arithmetic of one point: [S / T1] is the rounded step and [M / T2]
    the rounded product, each within half a unit in the last place. *)
Lemma point_floor (L N i Sm T1 M T2 : Z) :
  1 <= N <= L -> L < 2 ^ 25 -> 1 <= i < N ->
  0 < T1 -> 2 ^ 52 * N <= L * T1 -> - N <= 2 * (Sm * N - L * T1) <= N ->
  0 < T2 -> 2 ^ 52 * T1 <= i * Sm * T2 -> - T1 <= 2 * (M * T1 - i * Sm * T2) <= T1 ->
  (i * L / N - 1 <= M / T2 <= i * L / N) /\
  ((i * L) mod N <> 0 -> M / T2 = i * L / N).
Proof.
  intros HN HL Hi HT1 Hlow1 Herr1 HT2 Hlow2 Herr2.
  change (2 ^ 25) with 33554432 in HL. change (2 ^ 52) with 4503599627370496 in *.
  assert (134217728 * N <= T1) as HT1big by nia.
  assert (i * Sm * N <= i * L * T1 + i * N) as HiS by nia.
  assert (i * Sm < 67108864 * T1) as HiS2.
  { assert (i * Sm * N < 67108864 * T1 * N); [|nia].
    assert (i * L * T1 <= N * L * T1) by nia.
    assert (N * L * T1 <= N * 33554432 * T1) by nia.
    nia. }
  assert (67108864 < T2) as HT2big by nia.
  set (E := M * T1 * N - i * L * T1 * T2).
  assert (2 * E = N * (2 * (M * T1 - i * Sm * T2)) + i * T2 * (2 * (Sm * N - L * T1))) as HE
    by (unfold E; ring).
  assert (- (T1 * T2) < E < T1 * T2) as HEb.
  { assert (N * T1 < T1 * T2) by nia.
    assert (i * T2 * N < T1 * T2).
    { assert (i * N < T1) by nia. nia. }
    assert (- (N * T1) <= N * (2 * (M * T1 - i * Sm * T2)) <= N * T1) by nia.
    assert (- (i * T2 * N) <= i * T2 * (2 * (Sm * N - L * T1)) <= i * T2 * N) by nia.
    lia. }
  pose proof (Z.div_mod (i * L) N ltac:(lia)) as Hdm.
  pose proof (Z.mod_pos_bound (i * L) N ltac:(lia)) as Hr.
  set (f := i * L / N) in *. set (r := (i * L) mod N) in *.
  assert (M * T1 * N = (N * f + r) * T1 * T2 + E) as HM by (unfold E; rewrite <- Hdm; ring).
  assert (0 < T1 * N) as HTN by nia.
  assert ((f - 1) * T2 < M < (f + 1) * T2) as Hwide.
  { split.
    - apply (Z.mul_lt_mono_pos_r (T1 * N)); [done|].
      assert (0 <= r * T1 * T2) by nia.
      assert (T1 * T2 <= N * T1 * T2) by nia. nia.
    - apply (Z.mul_lt_mono_pos_r (T1 * N)); [done|].
      assert (r * T1 * T2 <= (N - 1) * T1 * T2) by nia. nia. }
  split.
  - split.
    + apply Z.div_le_lower_bound; lia.
    + assert (M / T2 < f + 1); [|lia]. apply Z.div_lt_upper_bound; lia.
  - intros Hr0.
    assert (f * T2 <= M) as Hlo.
    { assert (f * T2 < M); [|lia].
      apply (Z.mul_lt_mono_pos_r (T1 * N)); [done|].
      assert (1 * (T1 * T2) <= r * (T1 * T2)) by (apply Z.mul_le_mono_nonneg_r; nia).
      nia. }
    apply Z.le_antisymm.
    + assert (M / T2 < f + 1); [|lia]. apply Z.div_lt_upper_bound; lia.
    + apply Z.div_le_lower_bound; lia.
Qed.

Lemma trunc_nonneg (x : Z * Z) : 0 <= x.1 -> 0 <= Binary64.trunc x.
Proof.
  intros Hx. unfold Binary64.trunc.
  destruct (Z.leb_spec 0 x.2) as [He|He].
  - pose proof (pow2_pos _ He). nia.
  - apply Z.div_pos; [exact Hx|]. apply pow2_pos. lia.
Qed.

Lemma mul_int_nonneg (i : Z) (x : Z * Z) :
  0 <= i -> 0 <= x.1 -> 0 <= (Binary64.mul_int i x).1.
Proof.
  intros Hi Hx. unfold Binary64.mul_int.
  destruct (Z.leb_spec 0 x.2) as [He|He].
  - apply round_nonneg; [|lia]. pose proof (pow2_pos _ He). nia.
  - apply round_nonneg; [nia|]. apply pow2_pos. lia.
Qed.

Lemma binary64_point_nonneg (stop num i : Z) :
  0 <= stop -> 0 < num -> 0 <= i ->
  0 <= Binary64.trunc (Binary64.mul_int i (Binary64.round stop num)).
Proof.
  intros Hstop Hnum Hi.
  apply trunc_nonneg, mul_int_nonneg; [exact Hi|].
  apply round_nonneg; assumption.
Qed.

Lemma binary64_point_zero (stop num : Z) :
  Binary64.trunc (Binary64.mul_int 0 (Binary64.round stop num)) = 0.
Proof.
  unfold Binary64.mul_int. rewrite !Z.mul_0_l.
  destruct (0 <=? _); reflexivity.
Qed.

(** The position of index [i]: within one of the floor of the exact point,
    and equal to it unless [N] divides [i * L]. *)
Lemma binary64_point (L N i : Z) :
  1 <= N <= L -> L < 2 ^ 25 -> 0 <= i < N ->
  let pos := Binary64.trunc (Binary64.mul_int i (Binary64.round L N)) in
  (i * L / N - 1 <= pos <= i * L / N) /\
  ((i * L) mod N <> 0 -> pos = i * L / N).
Proof.
  intros HN HL Hi. cbv zeta.
  destruct (Z.eq_dec i 0) as [->|Hi0].
  { rewrite binary64_point_zero. rewrite Z.mul_0_l, Z.div_0_l, Z.mod_0_l by lia.
    split; [lia | intros []; reflexivity]. }
  change (2 ^ 25) with 33554432 in HL.
  destruct (round_spec L N) as (Sm & e1 & Hstep & He1 & HS & Hlow1 & Herr1);
    [lia | lia | change (2 ^ 52) with 4503599627370496; nia |].
  rewrite Hstep. unfold Binary64.mul_int. simpl fst. simpl snd.
  destruct (Z.leb_spec 0 e1) as [?|_]; [lia|].
  pose proof (pow2_pos (- e1) ltac:(lia)) as HT1.
  set (T1 := 2 ^ (- e1)) in *.
  change (2 ^ 52) with 4503599627370496 in Hlow1.
  assert (0 < Sm) as HSpos by nia.
  assert (i * Sm < 4503599627370496 * T1) as HiS.
  { assert (134217728 * N <= T1) by nia.
    assert (i * Sm * N < 67108864 * T1 * N); [|nia].
    assert (i * Sm * N <= i * L * T1 + i * N) by nia.
    assert (i * L * T1 <= N * L * T1) by nia.
    assert (N * L * T1 <= N * 33554432 * T1) by nia.
    nia. }
  destruct (round_spec (i * Sm) T1) as (M & e2 & Hpt & He2 & HM & Hlow2 & Herr2);
    [nia | lia | exact HiS |].
  rewrite Hpt. unfold Binary64.trunc. simpl fst. simpl snd.
  destruct (Z.leb_spec 0 e2) as [?|_]; [lia|].
  pose proof (pow2_pos (- e2) ltac:(lia)) as HT2.
  apply (point_floor L N i Sm T1 M (2 ^ (- e2))); try assumption; lia.
Qed.

(** The positions of [np.linspace] on a signature shorter than [2^25]. *)
Lemma linspace_int_position (L N : Z) (i : nat) (pos : Z) :
  1 <= N <= L -> L < 2 ^ 25 ->
  Np.linspace_int L N !! i = Some pos ->
  0 <= pos < L /\
  Z.of_nat i * L / N - 1 <= pos <= Z.of_nat i * L / N /\
  ((Z.of_nat i * L) mod N <> 0 -> pos = Z.of_nat i * L / N).
Proof.
  intros HN HL Hi. apply lookup_linspace_int in Hi as [-> Hi].
  destruct (binary64_point L N (Z.of_nat i) HN HL ltac:(lia)) as [Hnear Hfloor].
  pose proof (binary64_point_nonneg L N (Z.of_nat i) ltac:(lia) ltac:(lia) ltac:(lia)).
  pose proof (linspace_point_bounds L N (Z.of_nat i) ltac:(lia) ltac:(lia)).
  cbv zeta in Hnear, Hfloor.
  split; [lia|]. split; [lia | exact Hfloor].
Qed.

Lemma linspace_int_monotone (L N : Z) (i j : nat) (p q : Z) :
  1 <= N <= L -> L < 2 ^ 25 -> (i <= j)%nat ->
  Np.linspace_int L N !! i = Some p ->
  Np.linspace_int L N !! j = Some q ->
  p <= q.
Proof.
  intros HN HL Hij Hi Hj.
  destruct (decide (i = j)) as [->|Hne].
  { rewrite Hi in Hj. injection Hj as ->. lia. }
  destruct (linspace_int_position L N i p HN HL Hi) as (_ & Hp & _).
  destruct (linspace_int_position L N j q HN HL Hj) as (_ & Hq & _).
  pose proof (linspace_point_strict L N (Z.of_nat i) ltac:(lia)) as Hstrict.
  pose proof (linspace_point_mono L N (Z.of_nat i + 1) (Z.of_nat j)
                ltac:(lia) ltac:(lia) ltac:(lia)) as Hmono.
  lia.
Qed.

(** [Binary64] computes the positions that the hardware arithmetic gives:
    checked here for every [N <= L <= 40], and for the 63 words of the
    class defaults on a signature of 648 elements. *)
Lemma linspace_int_hardware :
  forallb (fun L : nat =>
    forallb (fun N : nat =>
      bool_decide (Np.linspace_int (Z.of_nat L) (Z.of_nat N)
                   = Float64.linspace_int (Z.of_nat L) (Z.of_nat N)))
      (seq 1 L))
    (seq 1 40) = true /\
  Np.linspace_int 648 63 = Float64.linspace_int 648 63.
Proof. split; vm_compute; reflexivity. Qed.

(** ** The filling loop *)

Lemma fill_words_spec (array : list Z) (k : Z) (word_positions : list Z) :
  forall (i : nat) (words : list (list Z)),
    (i + length word_positions <= length words)%nat ->
    fill_words array k i word_positions words
    = take i words ++ (word_at array k <$> word_positions)
        ++ drop (i + length word_positions) words.
Proof.
  induction word_positions as [|pos rest IH]; intros i words Hlen; simpl in *.
  - rewrite Nat.add_0_r. symmetry. apply take_drop.
  - rewrite IH by (rewrite length_insert; lia).
    assert (Hi : (i < length words)%nat) by lia.
    rewrite (take_S_r _ i (word_at array k pos))
      by (apply list_lookup_insert_eq; exact Hi).
    rewrite take_insert_ge by lia.
    rewrite drop_insert_lt by lia.
    rewrite <- app_assoc. simpl.
    replace (i + S (length rest))%nat with (S (i + length rest)) by lia.
    reflexivity.
Qed.

Lemma fill_words_all (array : list Z) (k : Z) (word_positions : list Z)
    (words : list (list Z)) :
  length words = length word_positions ->
  fill_words array k 0 word_positions words = word_at array k <$> word_positions.
Proof.
  intros Hlen. rewrite fill_words_spec by (simpl; lia).
  simpl. rewrite drop_ge by lia. apply app_nil_r.
Qed.

Lemma length_word_at (array : list Z) (k pos : Z) :
  0 <= k -> 0 <= pos -> Np.len (word_at array k pos) = k.
Proof.
  intros Hk Hpos. unfold word_at.
  destruct (pos + k <=? Np.len array) eqn:Hle.
  - apply Z.leb_le in Hle.
    pose proof (length_slice array pos k Hpos Hk Hle) as Hs.
    unfold Np.len in *. rewrite length_fmap. exact Hs.
  - pose proof (length_resize k (Np.slice_from array pos) Hk) as Hs.
    unfold Np.len in *. rewrite length_fmap. exact Hs.
Qed.

(** [get_words] on valid parameters: the rows are the words at the start
    positions. *)
Lemma get_words_ok (array : list Z) (k N : Z) :
  0 <= k <= Np.len array -> 0 <= N <= Np.len array ->
  get_words array k N
  = Ok (word_at array k <$> Np.linspace_int (Np.len array) N).
Proof.
  intros Hk HN. unfold get_words.
  assert (HlenZ : Np.len (Np.linspace_int (Np.len array) N) = N).
  { unfold Np.len at 1. rewrite length_linspace_int. lia. }
  rewrite HlenZ.
  replace (N <? 0) with false by (symmetry; apply Z.ltb_ge; lia).
  replace (k >? Np.len array) with false
    by (rewrite Z.gtb_ltb; symmetry; apply Z.ltb_ge; lia).
  replace (N >? Np.len array) with false
    by (rewrite Z.gtb_ltb; symmetry; apply Z.ltb_ge; lia).
  replace (k <? 0) with false by (symmetry; apply Z.ltb_ge; lia).
  rewrite fill_words_all; [reflexivity|].
  unfold Np.zeros. rewrite length_replicate, length_linspace_int. reflexivity.
Qed.

(** ** Word extraction *)

Example get_words_example :
  get_words [2; -1; 0; 3; -4; 1; 0; 2] 3 4
  = Ok [[2; -1; 0]; [0; 3; -4]; [-4; 1; 0]; [0; 2; 0]].
Proof. reflexivity. Qed.

(** Negative parameters never get past numpy. *)
Lemma get_words_negative (array : list Z) (k N : Z) :
  k < 0 \/ N < 0 -> get_words array k N = Raise ValueError.
Proof.
  intros Hneg. unfold get_words.
  destruct (Z.ltb_spec N 0) as [_|HN]; [reflexivity|].
  destruct (k >? Np.len array); [reflexivity|].
  destruct (_ >? Np.len array); [reflexivity|].
  destruct (Z.ltb_spec k 0) as [_|Hk]; [reflexivity | lia].
Qed.

(** C1 (as amended).  For a signature of length [1 <= L < 2^25], a word
    length [k <= L] and a word count [N <= L] (a length and a count are not
    negative), [get_words] returns exactly [N] words, each of length [k].
    Word [i] is the word at the start position of index [i].  The start
    positions are the truncated binary64 points [i * (L / N)] of
    [np.linspace]: position [i] is the floor of the exact point
    [i * L / N] when [N] does not divide [i * L], and that floor or one less
    when it does.  The first position is [0], every position is in
    [[0, L)], and the positions are non-decreasing. *)
Theorem get_words_shape (array : list Z) (k N : Z) :
  1 <= Np.len array < 2 ^ 25 ->
  0 <= k <= Np.len array ->
  0 <= N <= Np.len array ->
  exists words : list (list Z),
    get_words array k N = Ok words /\
    Np.len words = N /\
    Forall (fun w => Np.len w = k) words /\
    let positions := Np.linspace_int (Np.len array) N in
    words = word_at array k <$> positions /\
    Np.len positions = N /\
    (forall (i : nat) (pos : Z), positions !! i = Some pos ->
       pos = Binary64.trunc
               (Binary64.mul_int (Z.of_nat i) (Binary64.round (Np.len array) N)) /\
       Z.of_nat i * Np.len array / N - 1 <= pos <= Z.of_nat i * Np.len array / N /\
       ((Z.of_nat i * Np.len array) mod N <> 0 ->
        pos = Z.of_nat i * Np.len array / N)) /\
    (0 < N -> positions !! 0%nat = Some 0) /\
    Forall (fun pos => 0 <= pos < Np.len array) positions /\
    (forall (i j : nat) (p q : Z),
       (i <= j)%nat -> positions !! i = Some p -> positions !! j = Some q ->
       p <= q).
Proof.
  intros [HL HL25] Hk HN.
  exists (word_at array k <$> Np.linspace_int (Np.len array) N).
  assert (Hpos : Forall (fun pos => 0 <= pos < Np.len array)
                   (Np.linspace_int (Np.len array) N)).
  { apply Forall_lookup. intros i pos Hi.
    assert (1 <= N) as HN1.
    { apply lookup_linspace_int in Hi as [_ Hi]. lia. }
    apply (linspace_int_position _ N i pos); [lia | exact HL25 | exact Hi]. }
  assert (Hlen : Np.len (Np.linspace_int (Np.len array) N) = N).
  { unfold Np.len at 1. rewrite length_linspace_int. lia. }
  split; [apply get_words_ok; assumption|].
  split; [unfold Np.len in *; rewrite length_fmap; exact Hlen|].
  split.
  { apply Forall_fmap. eapply Forall_impl; [exact Hpos|].
    intros pos Hp. simpl in *. apply length_word_at; lia. }
  cbv zeta. split; [reflexivity|]. split; [exact Hlen|]. split.
  { intros i pos Hi.
    assert (1 <= N) as HN1.
    { pose proof Hi as Hi'. apply lookup_linspace_int in Hi' as [_ Hi']. lia. }
    split; [apply lookup_linspace_int in Hi as [Hi _]; exact Hi|].
    apply (linspace_int_position _ N i pos); [lia | exact HL25 | exact Hi]. }
  split.
  { intros HN0. apply lookup_linspace_int. split; [|lia].
    simpl. symmetry. apply binary64_point_zero. }
  split; [exact Hpos|].
  intros i j p q Hij Hi Hj.
  assert (1 <= N) as HN1.
  { pose proof Hi as Hi'. apply lookup_linspace_int in Hi' as [_ Hi']. lia. }
  apply (linspace_int_monotone (Np.len array) N i j); [lia|assumption..].
Qed.

Lemma get_words_shape_witness :
  exists words : list (list Z),
    get_words Example.ramp 1 22 = Ok words /\
    Np.len words = 22 /\
    Forall (fun w => Np.len w = 1) words /\
    Np.linspace_int 30 22 !! 11%nat = Some 14 /\
    11 * 30 / 22 - 1 <= 14 <= 11 * 30 / 22.
Proof.
  destruct (get_words_shape Example.ramp 1 22)
    as (words & Hok & Hlen & Hall & _ & _ & Hpos & _).
  - vm_compute. split; [discriminate | reflexivity].
  - vm_compute. split; discriminate.
  - vm_compute. split; discriminate.
  - exists words. split; [exact Hok|]. split; [exact Hlen|].
    split; [exact Hall|]. split; [reflexivity|].
    exact (proj1 (proj2 (Hpos 11%nat 14 eq_refl))).
Defined.

(** The claim as it stands, with the floors of the exact points, fails on
    a signature of length 30 cut into 22 words: the point of index 11 is
    [11 * 30 / 22 = 15], but binary64 gives [30 / 22 = 1.3636363636363635]
    and [11 * 1.3636363636363635 = 14.999999999999998], so the word starts
    at position 14. *)
Lemma get_words_position_below_floor :
  Np.linspace_exact 30 22 !! 11%nat = Some 15 /\
  Np.linspace_int 30 22 !! 11%nat = Some 14 /\
  Float64.linspace_int 30 22 !! 11%nat = Some 14 /\
  get_words Example.ramp 1 22
  <> Ok (word_at Example.ramp 1 <$> Np.linspace_exact 30 22) /\
  exists words : list (list Z),
    get_words Example.ramp 1 22 = Ok words /\
    words !! 11%nat = Some [14].
Proof.
  split; [reflexivity|]. split; [reflexivity|]. split; [vm_compute; reflexivity|].
  split; [vm_compute; discriminate|].
  eexists. split; [vm_compute; reflexivity | reflexivity].
Qed.

(** C3.  For a signature of length [L >= 1], [get_words] raises when
    [k > L], raises when [N > L], and returns when [k <= L] and [N <= L]
    ([k] a length and [N] a count, hence non-negative). *)
Theorem get_words_validation (array : list Z) (k N : Z) :
  1 <= Np.len array ->
  (Np.len array < k -> get_words array k N = Raise ValueError) /\
  (Np.len array < N -> get_words array k N = Raise ValueError) /\
  (0 <= k <= Np.len array -> 0 <= N <= Np.len array ->
   succeeds (get_words array k N)).
Proof.
  intros HL. split; [|split].
  - intros Hk. unfold get_words.
    destruct (N <? 0); [reflexivity|].
    replace (k >? Np.len array) with true
      by (rewrite Z.gtb_ltb; symmetry; apply Z.ltb_lt; lia).
    reflexivity.
  - intros HN. unfold get_words.
    destruct (N <? 0); [reflexivity|].
    destruct (k >? Np.len array); [reflexivity|].
    assert (Hlen : Np.len (Np.linspace_int (Np.len array) N) = N).
    { unfold Np.len at 1. rewrite length_linspace_int. lia. }
    rewrite Hlen.
    replace (N >? Np.len array) with true
      by (rewrite Z.gtb_ltb; symmetry; apply Z.ltb_lt; lia).
    reflexivity.
  - intros Hk HN. eexists. apply get_words_ok; assumption.
Qed.

Lemma get_words_validation_witness :
  get_words [1; 2] 3 1 = Raise ValueError /\
  get_words [1; 2] 1 3 = Raise ValueError /\
  succeeds (get_words [1; 2] 2 2).
Proof.
  destruct (get_words_validation [1; 2] 3 1) as (Hk & _ & _);
    [vm_compute; discriminate|].
  destruct (get_words_validation [1; 2] 1 3) as (_ & HN & _);
    [vm_compute; discriminate|].
  destruct (get_words_validation [1; 2] 2 2) as (_ & _ & Hok);
    [vm_compute; discriminate|].
  split; [apply Hk; vm_compute; reflexivity|].
  split; [apply HN; vm_compute; reflexivity|].
  apply Hok; vm_compute; split; discriminate.
Defined.

(** The word at a start position, for a signature of [int8] elements. *)
Lemma word_at_inside (array : list Z) (k pos : Z) :
  Forall Np.is_int8 array -> pos + k <= Np.len array ->
  word_at array k pos = Np.slice array pos (pos + k).
Proof.
  intros Harr Hle. unfold word_at.
  replace (pos + k <=? Np.len array) with true
    by (symmetry; apply Z.leb_le; exact Hle).
  apply int8_fmap_id. unfold Np.slice, Np.slice_from.
  apply Forall_int8_take, Forall_int8_drop, Harr.
Qed.

Lemma word_at_cast_inside (array : list Z) (k pos : Z) :
  pos + k <= Np.len array ->
  word_at array k pos = Np.int8 <$> Np.slice array pos (pos + k).
Proof.
  intros Hle. unfold word_at.
  replace (pos + k <=? Np.len array) with true
    by (symmetry; apply Z.leb_le; exact Hle).
  reflexivity.
Qed.

Lemma word_at_cast_overrun (array : list Z) (k pos : Z) :
  0 <= pos -> 0 <= k -> Np.len array < pos + k ->
  word_at array k pos
  = Np.int8 <$> (Np.slice_from array pos
      ++ replicate (Z.to_nat (k - Np.len (Np.slice_from array pos))) 0).
Proof.
  intros Hpos Hk Hgt. unfold word_at.
  replace (pos + k <=? Np.len array) with false
    by (symmetry; apply Z.leb_gt; exact Hgt).
  pose proof (length_slice_from array pos Hpos) as Hlen.
  rewrite resize_pad by lia. reflexivity.
Qed.

Lemma word_at_overrun (array : list Z) (k pos : Z) :
  Forall Np.is_int8 array -> 0 <= pos -> 0 <= k ->
  Np.len array < pos + k ->
  word_at array k pos
  = Np.slice_from array pos
      ++ replicate (Z.to_nat (k - Np.len (Np.slice_from array pos))) 0.
Proof.
  intros Harr Hpos Hk Hgt.
  rewrite word_at_cast_overrun by assumption.
  apply int8_fmap_id, Forall_app. split.
  - unfold Np.slice_from. apply Forall_int8_drop, Harr.
  - apply Forall_replicate. unfold Np.is_int8. lia.
Qed.

(** C2.  For each start position [pos] of [get_words]: if [pos + k <= L]
    the word is [signature[pos : pos+k]], otherwise it is [signature[pos:]]
    followed by zeros up to length [k]; the elements are stored as [int8],
    which leaves a signature of [int8] elements as it is.  For the signature
    [[2,-1,0,3,-4,1,0,2]] with [k = 3] and [N = 4] the start positions are
    [[0,2,4,6]], the word at position 6 is [[0,2]] padded to [[0,2,0]], and
    the quantised word at position 0 is [[1,-1,0]]. *)
Theorem get_words_contents :
  (forall (array : list Z) (k N : Z),
     1 <= Np.len array ->
     0 <= k <= Np.len array ->
     0 <= N <= Np.len array ->
     exists words : list (list Z),
       get_words array k N = Ok words /\
       forall (i : nat) (pos : Z),
         Np.linspace_int (Np.len array) N !! i = Some pos ->
         let padded :=
           Np.slice_from array pos
             ++ replicate (Z.to_nat (k - Np.len (Np.slice_from array pos))) 0 in
         0 <= pos /\
         (pos + k <= Np.len array ->
          words !! i = Some (Np.int8 <$> Np.slice array pos (pos + k)) /\
          (Forall Np.is_int8 array ->
           words !! i = Some (Np.slice array pos (pos + k)))) /\
         (Np.len array < pos + k ->
          Np.len padded = k /\
          words !! i = Some (Np.int8 <$> padded) /\
          (Forall Np.is_int8 array -> words !! i = Some padded)))
  /\
  (let signature := [2; -1; 0; 3; -4; 1; 0; 2] in
   Np.linspace_int (Np.len signature) 4 = [0; 2; 4; 6] /\
   Float64.linspace_int (Np.len signature) 4 = [0; 2; 4; 6] /\
   exists words : list (list Z),
     get_words signature 3 4 = Ok words /\
     Np.slice_from signature 6 = [0; 2] /\
     words !! 3%nat = Some [0; 2; 0] /\
     max_contrast words !! 0%nat = Some [1; -1; 0]).
Proof.
  split.
  - intros array k N HL Hk HN.
    exists (word_at array k <$> Np.linspace_int (Np.len array) N).
    split; [apply get_words_ok; assumption|].
    intros i pos Hi. cbv zeta. rewrite list_lookup_fmap, Hi. simpl.
    apply lookup_linspace_int in Hi as [Hpos Hi].
    assert (0 <= pos) as Hpos0.
    { rewrite Hpos. apply binary64_point_nonneg; lia. }
    split; [exact Hpos0|]. split; intros Hcmp.
    + split; [f_equal; apply word_at_cast_inside; exact Hcmp|].
      intros Harr. f_equal. apply word_at_inside; assumption.
    + split.
      { pose proof (length_slice_from array pos Hpos0) as Hlen.
        unfold Np.len in *. rewrite length_app, length_replicate. lia. }
      split; [f_equal; apply word_at_cast_overrun; lia|].
      intros Harr. f_equal. apply word_at_overrun; [assumption | lia..].
  - cbv zeta. split; [reflexivity|]. split; [vm_compute; reflexivity|].
    eexists. split; [reflexivity|]. repeat split; reflexivity.
Qed.

Lemma get_words_contents_witness :
  exists words : list (list Z),
    get_words [2; -1; 0; 3; -4; 1; 0; 2] 3 4 = Ok words /\
    words !! 1%nat = Some [0; 3; -4] /\
    words !! 3%nat = Some ([0; 2] ++ [0]).
Proof.
  destruct (proj1 get_words_contents [2; -1; 0; 3; -4; 1; 0; 2] 3 4)
    as (words & Hok & Hpos).
  - vm_compute. discriminate.
  - vm_compute. split; discriminate.
  - vm_compute. split; discriminate.
  - assert (Forall Np.is_int8 [2; -1; 0; 3; -4; 1; 0; 2]) as Hint
      by (repeat constructor; vm_compute; discriminate).
    exists words. split; [exact Hok|]. split.
    + destruct (Hpos 1%nat 2 eq_refl) as (_ & Hin & _).
      apply Hin; [vm_compute; discriminate | exact Hint].
    + destruct (Hpos 3%nat 6 eq_refl) as (_ & _ & Hout).
      apply Hout; [vm_compute; reflexivity | exact Hint].
Defined.

(** ** Quantisation *)

Lemma quantize_elem (x : Z) :
  (if (if x >? 0 then 1 else x) <? 0 then -1 else if x >? 0 then 1 else x)
  = Z.sgn x.
Proof.
  destruct (Z.gtb_spec x 0) as [Hx|Hx].
  - simpl. lia.
  - destruct (Z.ltb_spec x 0); lia.
Qed.

Lemma quantize_sgn (word : list Z) : quantize word = Z.sgn <$> word.
Proof.
  unfold quantize, Np.assign_where. rewrite <- list_fmap_compose.
  apply list_fmap_ext. intros _ x _. simpl. apply quantize_elem.
Qed.

Lemma max_contrast_rows (array : list (list Z)) :
  max_contrast array = quantize <$> array.
Proof.
  unfold max_contrast. rewrite <- list_fmap_compose. reflexivity.
Qed.

(** C4.  [max_contrast] sends every element to [-1], [0] or [1]: a
    positive value to [1], a negative value to [-1], zero to [0]; applying
    it twice gives what applying it once gives.  Stated for one word
    ([quantize]) and for the array of words ([max_contrast]). *)
Theorem max_contrast_sign_idempotent (word : list Z) (array : list (list Z)) :
  Forall (fun y => y = -1 \/ y = 0 \/ y = 1) (quantize word) /\
  length (quantize word) = length word /\
  (forall (i : nat) (x : Z), word !! i = Some x ->
     exists y, quantize word !! i = Some y /\
       (0 < x -> y = 1) /\ (x < 0 -> y = -1) /\ (x = 0 -> y = 0)) /\
  quantize (quantize word) = quantize word /\
  max_contrast array = quantize <$> array /\
  max_contrast (max_contrast array) = max_contrast array.
Proof.
  assert (Hidem : forall w, quantize (quantize w) = quantize w).
  { intros w. rewrite !quantize_sgn, <- list_fmap_compose.
    apply list_fmap_ext. intros _ x _. simpl. lia. }
  split.
  { rewrite quantize_sgn. apply Forall_fmap, Forall_forall.
    intros x _. simpl. lia. }
  split; [rewrite quantize_sgn; apply length_fmap|].
  split.
  { intros i x Hx. exists (Z.sgn x). rewrite quantize_sgn, list_lookup_fmap, Hx.
    split; [reflexivity | lia]. }
  split; [apply Hidem|].
  split; [apply max_contrast_rows|].
  rewrite !max_contrast_rows, <- list_fmap_compose.
  apply list_fmap_ext. intros _ w _. simpl. apply Hidem.
Qed.

Lemma max_contrast_sign_idempotent_witness :
  exists y, quantize [3; 0; -4] !! 2%nat = Some y /\ y = -1.
Proof.
  destruct (max_contrast_sign_idempotent [3; 0; -4] []) as (_ & _ & Hsign & _).
  destruct (Hsign 2%nat (-4) eq_refl) as (y & Hy & _ & Hneg & _).
  exists y. split; [exact Hy|]. apply Hneg. vm_compute. reflexivity.
Defined.

(** ** Field names *)

Lemma slot_name_inj (i j : Z) : slot_name i = slot_name j -> i = j.
Proof.
  unfold slot_name. simpl. intros [= Heq].
  apply (inj pretty). exact Heq.
Qed.

Lemma slot_name_not_path (i : Z) : slot_name i <> "path".
Proof. unfold slot_name. simpl. discriminate. Qed.

Lemma slot_name_not_signature (i : Z) : slot_name i <> "signature".
Proof. unfold slot_name. simpl. discriminate. Qed.

Lemma slot_name_simple (i : Z) : str_find (slot_name i) "simple" = 0.
Proof. reflexivity. Qed.

Lemma elem_of_keys (d : document) (name : string) :
  name ∈ keys d <-> is_Some (d !! name).
Proof.
  unfold keys. rewrite list_elem_of_fmap. split.
  - intros ([name' v] & -> & Hin). apply elem_of_map_to_list in Hin.
    simpl. eauto.
  - intros [v Hv]. exists (name, v). split; [reflexivity|].
    apply elem_of_map_to_list. exact Hv.
Qed.

Lemma elem_of_discover_index_names (d : document) (name : string) :
  name ∈ discover_index_names d <->
  is_Some (d !! name) /\ str_find name "simple" > -1.
Proof.
  unfold discover_index_names.
  rewrite list_elem_of_In, filter_In, <- list_elem_of_In, elem_of_keys.
  rewrite Z.gtb_ltb, Z.ltb_lt. intuition lia.
Qed.

(** ** Records *)

Lemma length_fill_words (array : list Z) (k : Z) (word_positions : list Z) :
  forall (i : nat) (words : list (list Z)),
    length (fill_words array k i word_positions words) = length words.
Proof.
  induction word_positions as [|pos rest IH]; intros i words; simpl.
  - reflexivity.
  - rewrite IH. apply length_insert.
Qed.

Lemma get_words_length (array : list Z) (k N : Z) (words : list (list Z)) :
  get_words array k N = Ok words -> 0 <= N /\ length words = Z.to_nat N.
Proof.
  unfold get_words. destruct (Z.ltb_spec N 0); [discriminate|].
  destruct (k >? Np.len array); [discriminate|].
  destruct (_ >? Np.len array); [discriminate|].
  destruct (k <? 0); [discriminate|].
  intros [= <-]. split; [assumption|].
  rewrite length_fill_words. unfold Np.zeros. apply length_replicate.
Qed.

Section SetWordSlots.

Variable words : list (list Z).

Lemma set_word_slots_ok (indices : list nat) :
  forall record : document,
    Forall (fun i => (i < length words)%nat) indices ->
    exists record', set_word_slots words indices record = Ok record'.
Proof.
  induction indices as [|i rest IH]; intros record Hall; simpl.
  - eauto.
  - inversion Hall as [|? ? Hi Hrest]; subst.
    destruct (lookup_lt_is_Some_2 words i Hi) as [w ->].
    apply IH. exact Hrest.
Qed.

Lemma set_word_slots_other (indices : list nat) (name : string) :
  forall record record' : document,
    set_word_slots words indices record = Ok record' ->
    (forall i, i ∈ indices -> name <> slot_name (Z.of_nat i)) ->
    record' !! name = record !! name.
Proof.
  induction indices as [|i rest IH]; intros record record' Hset Hfresh;
    simpl in Hset.
  - congruence.
  - destruct (words !! i) as [w|]; [|discriminate].
    rewrite (IH _ _ Hset) by (intros j Hj; apply Hfresh; set_solver).
    apply lookup_insert_ne. intros Heq. apply (Hfresh i); [set_solver|].
    symmetry. exact Heq.
Qed.

Lemma set_word_slots_slot (indices : list nat) (i : nat) :
  forall record record' : document,
    set_word_slots words indices record = Ok record' ->
    NoDup indices -> i ∈ indices ->
    record' !! slot_name (Z.of_nat i) = VInts <$> words !! i.
Proof.
  induction indices as [|j rest IH]; intros record record' Hset Hnd Hin;
    simpl in Hset.
  - set_solver.
  - destruct (words !! j) as [w|] eqn:Hw; [|discriminate].
    apply NoDup_cons in Hnd as [Hj Hnd].
    destruct (decide (i ∈ rest)) as [Hrest|Hrest].
    + apply (IH _ _ Hset Hnd Hrest).
    + apply elem_of_cons in Hin as [->|Hin]; [|contradiction].
      rewrite (set_word_slots_other rest _ _ _ Hset).
      * rewrite lookup_insert_eq, Hw. reflexivity.
      * intros i' Hi' Heq. apply slot_name_inj in Heq.
        apply Hrest. replace j with i' by lia. exact Hi'.
Qed.

End SetWordSlots.

Section Records.

Variable generate_signature : string -> list Z.

Lemma make_record_unfold (self : SignatureCollection) (path : string)
    (words : list (list Z)) :
  get_words (generate_signature path) (self_k self) (self_N self) = Ok words ->
  make_record generate_signature self path
  = set_word_slots (max_contrast words) (seq 0 (Z.to_nat (self_N self)))
      (record_base generate_signature path).
Proof. intros Hwords. unfold make_record. rewrite Hwords. reflexivity. Qed.

Lemma make_record_words (self : SignatureCollection) (path : string)
    (record : document) :
  make_record generate_signature self path = Ok record ->
  exists words : list (list Z),
    get_words (generate_signature path) (self_k self) (self_N self) = Ok words.
Proof.
  unfold make_record.
  destruct (get_words _ _ _) as [words|]; [eauto | discriminate].
Qed.

(** As soon as [get_words] returns, so does [make_record]. *)
Lemma make_record_ok (self : SignatureCollection) (path : string)
    (words : list (list Z)) :
  get_words (generate_signature path) (self_k self) (self_N self) = Ok words ->
  exists record : document,
    make_record generate_signature self path = Ok record.
Proof.
  intros Hwords. rewrite (make_record_unfold _ _ _ Hwords).
  destruct (get_words_length _ _ _ _ Hwords) as [_ Hlen].
  apply set_word_slots_ok, Forall_forall. intros i Hi.
  apply elem_of_seq in Hi. rewrite max_contrast_rows, length_fmap. lia.
Qed.

(** The fields other than the word slots are those of [record_base]. *)
Lemma make_record_other (self : SignatureCollection) (path : string)
    (record : document) (name : string) :
  make_record generate_signature self path = Ok record ->
  (forall i : Z, 0 <= i < self_N self -> name <> slot_name i) ->
  record !! name = record_base generate_signature path !! name.
Proof.
  intros Hrec Hfresh.
  destruct (make_record_words _ _ _ Hrec) as [words Hwords].
  rewrite (make_record_unfold _ _ _ Hwords) in Hrec.
  apply (set_word_slots_other _ _ _ _ _ Hrec).
  intros i Hi. apply elem_of_seq in Hi. apply Hfresh. lia.
Qed.

Lemma make_record_signature (self : SignatureCollection) (path : string)
    (record : document) :
  make_record generate_signature self path = Ok record ->
  record !! "signature" = Some (VInts (generate_signature path)).
Proof.
  intros Hrec. rewrite (make_record_other _ _ _ _ Hrec); [reflexivity|].
  intros i _ Heq. symmetry in Heq. exact (slot_name_not_signature i Heq).
Qed.

Lemma make_record_path (self : SignatureCollection) (path : string)
    (record : document) :
  make_record generate_signature self path = Ok record ->
  record !! "path" = Some (VStr path).
Proof.
  intros Hrec. rewrite (make_record_other _ _ _ _ Hrec); [reflexivity|].
  intros i _ Heq. symmetry in Heq. exact (slot_name_not_path i Heq).
Qed.

(** Slot [i] holds row [i] of the quantised words. *)
Lemma make_record_slot (self : SignatureCollection) (path : string)
    (words : list (list Z)) (record : document) (i : nat) :
  get_words (generate_signature path) (self_k self) (self_N self) = Ok words ->
  make_record generate_signature self path = Ok record ->
  Z.of_nat i < self_N self ->
  record !! slot_name (Z.of_nat i) = VInts <$> max_contrast words !! i.
Proof.
  intros Hwords Hrec Hi.
  rewrite (make_record_unfold _ _ _ Hwords) in Hrec.
  apply (set_word_slots_slot _ _ _ _ _ Hrec); [apply NoDup_seq|].
  apply elem_of_seq. lia.
Qed.

(** The fields of a record. *)
Lemma make_record_dom (self : SignatureCollection) (path : string)
    (record : document) (name : string) :
  make_record generate_signature self path = Ok record ->
  is_Some (record !! name) <->
  name = "path" \/ name = "signature" \/
  exists i : Z, 0 <= i < self_N self /\ name = slot_name i.
Proof.
  intros Hrec.
  destruct (make_record_words _ _ _ Hrec) as [words Hwords].
  destruct (get_words_length _ _ _ _ Hwords) as [HN Hlen].
  split.
  - intros Hsome.
    destruct (decide (name ∈ (fun i : nat => slot_name (Z.of_nat i))
                               <$> seq 0 (Z.to_nat (self_N self))))
      as [Hin|Hno].
    + apply list_elem_of_fmap in Hin as (i & -> & Hi).
      apply elem_of_seq in Hi.
      right. right. exists (Z.of_nat i). split; [lia | reflexivity].
    + rewrite (make_record_other _ _ _ _ Hrec) in Hsome.
      * unfold record_base in Hsome.
        destruct (decide (name = "signature")) as [->|Hns]; [tauto|].
        rewrite lookup_insert_ne in Hsome by congruence.
        destruct (decide (name = "path")) as [->|Hnp]; [tauto|].
        rewrite lookup_insert_ne, lookup_empty in Hsome by congruence.
        destruct Hsome as [? [=]].
      * intros i Hi ->. apply Hno. apply list_elem_of_fmap.
        exists (Z.to_nat i). split; [f_equal; lia|].
        apply elem_of_seq. lia.
  - intros [->|[->|(i & Hi & ->)]].
    + rewrite (make_record_path _ _ _ Hrec). eauto.
    + rewrite (make_record_signature _ _ _ Hrec). eauto.
    + replace i with (Z.of_nat (Z.to_nat i)) by lia.
      rewrite (make_record_slot _ _ _ _ _ Hwords Hrec) by lia.
      destruct (lookup_lt_is_Some_2 (max_contrast words) (Z.to_nat i))
        as [w ->]; [|simpl; eauto].
      rewrite max_contrast_rows, length_fmap. lia.
Qed.

(** The discovery rule, run on a record, finds the word slots. *)
Lemma make_record_index_names (self : SignatureCollection) (path : string)
    (record : document) (name : string) :
  make_record generate_signature self path = Ok record ->
  name ∈ discover_index_names record <->
  exists i : Z, 0 <= i < self_N self /\ name = slot_name i.
Proof.
  intros Hrec.
  rewrite elem_of_discover_index_names, (make_record_dom _ _ _ _ Hrec). split.
  - intros [[->|[->|Hslot]] Hfind];
      [vm_compute in Hfind; discriminate Hfind
      |vm_compute in Hfind; discriminate Hfind
      |exact Hslot].
  - intros (i & Hi & ->). split; [eauto|].
    rewrite slot_name_simple. lia.
Qed.

(** C10.  A record produced by [make_record] has exactly the fields
    ['path'], ['signature'] and ['simple_word_0'] to
    ['simple_word_{N-1}']; the word-slot fields are exactly the fields the
    index-discovery rule selects; ['signature'] holds the raw signature
    and slot [i] holds the quantised word [i]: a list as long as word [i] of
    [get_words], with elements among [-1], [0] and [1], each the sign of the
    element of the word at the same place.  The record exists as soon as
    [get_words] returns. *)
Theorem make_record_fields (self : SignatureCollection) (path : string)
    (words : list (list Z)) :
  get_words (generate_signature path) (self_k self) (self_N self) = Ok words ->
  exists record : document,
    make_record generate_signature self path = Ok record /\
    (forall name : string,
       is_Some (record !! name) <->
       name = "path" \/ name = "signature" \/
       exists i : Z, 0 <= i < self_N self /\ name = slot_name i) /\
    (forall name : string,
       name ∈ discover_index_names record <->
       exists i : Z, 0 <= i < self_N self /\ name = slot_name i) /\
    record !! "path" = Some (VStr path) /\
    record !! "signature" = Some (VInts (generate_signature path)) /\
    (forall i : nat, (Z.of_nat i < self_N self) ->
       exists w q : list Z,
         words !! i = Some w /\
         record !! slot_name (Z.of_nat i) = Some (VInts q) /\
         q = quantize w /\
         length q = length w /\
         Forall (fun y => y = -1 \/ y = 0 \/ y = 1) q /\
         (forall (j : nat) (x : Z), w !! j = Some x ->
            exists y : Z, q !! j = Some y /\
              (0 < x -> y = 1) /\ (x < 0 -> y = -1) /\ (x = 0 -> y = 0))).
Proof.
  intros Hwords.
  destruct (make_record_ok self path words Hwords) as [record Hrec].
  destruct (get_words_length _ _ _ _ Hwords) as [HN Hlen].
  exists record. split; [exact Hrec|].
  split; [intros name; apply (make_record_dom _ _ _ _ Hrec)|].
  split; [intros name; apply (make_record_index_names _ _ _ _ Hrec)|].
  split; [apply (make_record_path _ _ _ Hrec)|].
  split; [apply (make_record_signature _ _ _ Hrec)|].
  intros i Hi.
  destruct (lookup_lt_is_Some_2 words i) as [w Hw]; [lia|].
  exists w, (quantize w). split; [exact Hw|].
  split.
  { rewrite (make_record_slot _ _ _ _ _ Hwords Hrec Hi).
    rewrite max_contrast_rows, list_lookup_fmap, Hw. reflexivity. }
  split; [reflexivity|].
  rewrite quantize_sgn.
  split; [apply length_fmap|].
  split.
  { apply Forall_fmap, Forall_forall. intros x _. simpl. lia. }
  intros j x Hx. exists (Z.sgn x). rewrite list_lookup_fmap, Hx.
  split; [reflexivity | lia].
Qed.

End Records.

Lemma make_record_fields_witness :
  exists record : document,
    make_record Example.generate_signature Example.self "a.png" = Ok record /\
    record !! "path" = Some (VStr "a.png") /\
    record !! "signature" = Some (VInts [2; -1; 0; 3; -4; 1; 0; 2]) /\
    record !! "simple_word_0" = Some (VInts [1; -1; 0]) /\
    record !! "simple_word_1" = Some (VInts [0; 1; -1]) /\
    record !! "simple_word_2" = Some (VInts [-1; 1; 0]) /\
    record !! "simple_word_3" = Some (VInts [0; 1; 0]) /\
    record !! "simple_word_4" = None.
Proof.
  destruct (make_record_fields Example.generate_signature Example.self "a.png"
              [[2; -1; 0]; [0; 3; -4]; [-4; 1; 0]; [0; 2; 0]] eq_refl)
    as (record & Hok & Hdom & _ & Hpath & Hsig & Hslots).
  assert (forall (i : nat) (w : list Z),
            (i < 4)%nat ->
            [[2; -1; 0]; [0; 3; -4]; [-4; 1; 0]; [0; 2; 0]] !! i = Some w ->
            record !! slot_name (Z.of_nat i) = Some (VInts (quantize w)))
    as Hslot.
  { intros i w Hi Hw.
    destruct (Hslots i) as (w' & q & Hw' & Hq & Hqw & _).
    - change (self_N Example.self) with 4. lia.
    - rewrite Hw in Hw'. injection Hw' as <-. rewrite <- Hqw. exact Hq. }
  exists record. split; [exact Hok|]. split; [exact Hpath|]. split; [exact Hsig|].
  split; [exact (Hslot 0%nat _ ltac:(lia) eq_refl)|].
  split; [exact (Hslot 1%nat _ ltac:(lia) eq_refl)|].
  split; [exact (Hslot 2%nat _ ltac:(lia) eq_refl)|].
  split; [exact (Hslot 3%nat _ ltac:(lia) eq_refl)|].
  destruct (record !! "simple_word_4") as [v|] eqn:Hv; [|reflexivity].
  exfalso.
  destruct (proj1 (Hdom "simple_word_4") ltac:(rewrite Hv; eauto))
    as [Hn|[Hn|(i & Hi & Hn)]]; [discriminate Hn | discriminate Hn |].
  change (self_N Example.self) with 4 in Hi.
  assert (i = 0 \/ i = 1 \/ i = 2 \/ i = 3) as Hcases by lia.
  destruct Hcases as [-> | [-> | [-> | ->]]]; vm_compute in Hn; discriminate Hn.
Defined.

(** ** Construction *)

Lemma result_cases {A : Type} (m : result A) : fails m <-> ~ succeeds m.
Proof.
  unfold fails, succeeds. destruct m as [a|e]; split.
  - intros [e [=]].
  - intros Hno. exfalso. apply Hno. eauto.
  - intros _ [a [=]].
  - eauto.
Qed.

(** C9, as the code has it.  Construction returns exactly when the store
    handle is a [Collection], [k] and [N] have type [int], and
    [distance_cutoff] has type [float] and is not negative; it raises
    otherwise.  In particular it returns for every non-negative [float]
    cutoff, [0.0] included. *)
Theorem init_validation (collection k N distance_cutoff : pyobj) :
  let accepted :=
    (exists docs, collection = PyCollection docs) /\
    (exists k', k = PyInt k') /\
    (exists N', N = PyInt N') /\
    (exists x, distance_cutoff = PyFloat x /\ (0 <= x)%R) in
  (succeeds (init collection k N distance_cutoff) <-> accepted) /\
  (fails (init collection k N distance_cutoff) <-> ~ accepted) /\
  (forall (docs : list document) (k' N' : Z) (x : R),
     (0 <= x)%R ->
     succeeds (init (PyCollection docs) (PyInt k') (PyInt N') (PyFloat x))) /\
  succeeds (init (PyCollection []) (PyInt 16) (PyInt 63) (PyFloat 0)).
Proof.
  assert (Hfloat : forall (docs : list document) (k' N' : Z) (x : R),
            (0 <= x)%R ->
            succeeds (init (PyCollection docs) (PyInt k') (PyInt N') (PyFloat x))).
  { intros docs k' N' x Hx. unfold init, succeeds.
    destruct (decide (x < 0)%R) as [Hneg|_]; [lra|].
    destruct docs as [|doc docs]; simpl; [eauto|].
    destruct (Np.len (doc :: docs) >? 0); eauto. }
  assert (Hiff : succeeds (init collection k N distance_cutoff) <->
            (exists docs, collection = PyCollection docs) /\
            (exists k', k = PyInt k') /\
            (exists N', N = PyInt N') /\
            (exists x, distance_cutoff = PyFloat x /\ (0 <= x)%R)).
  { split.
    - intros [self Hinit]. unfold init in Hinit.
      destruct collection; try discriminate.
      destruct k; try discriminate.
      destruct N; try discriminate.
      destruct distance_cutoff; try discriminate.
      destruct (decide (x < 0)%R) as [|Hge]; [discriminate|].
      repeat split; eauto. exists x. split; [reflexivity | lra].
    - intros ((docs & ->) & (k' & ->) & (N' & ->) & (x & -> & Hx)).
      apply Hfloat. exact Hx. }
  cbv zeta. split; [exact Hiff|]. split.
  { rewrite result_cases, Hiff. reflexivity. }
  split; [exact Hfloat|]. apply Hfloat. lra.
Qed.

Lemma init_validation_witness :
  succeeds (init (PyCollection [Example.stored]) (PyInt 3) (PyInt 4)
              (PyFloat (6 / 10))).
Proof.
  destruct (init_validation (PyCollection [Example.stored]) (PyInt 3) (PyInt 4)
              (PyFloat (6 / 10))) as (_ & _ & Hfloat & _).
  apply Hfloat. lra.
Defined.

(** C9, as stated, fails: the integer [0] is a non-negative number, yet
    the constructor refuses it as a cutoff because its type is not [float]. *)
Lemma init_rejects_integer_cutoff :
  numeric_value (PyInt 0) = Some 0%R /\
  init (PyCollection []) (PyInt 16) (PyInt 63) (PyInt 0) = Raise TypeError.
Proof. split; reflexivity. Qed.

(** A [long] is an integer, and is refused as a word length all the same. *)
Lemma init_rejects_long_k :
  init (PyCollection []) (PyLong 16) (PyInt 63) (PyFloat 0) = Raise TypeError.
Proof. reflexivity. Qed.

(** ** Index names *)

Lemma init_index_names (collection k N distance_cutoff : pyobj)
    (self : SignatureCollection) :
  init collection k N distance_cutoff = Ok self ->
  exists docs, collection = PyCollection docs /\
    self_collection self = docs /\
    self_index_names self = discover_index_names <$> head docs.
Proof.
  unfold init. intros Hinit.
  destruct collection; try discriminate.
  destruct k; try discriminate.
  destruct N; try discriminate.
  destruct distance_cutoff; try discriminate.
  destruct (decide (x < 0)%R); [discriminate|].
  exists docs. split; [reflexivity|].
  destruct docs as [|doc docs].
  - simpl in Hinit. injection Hinit as <-. simpl. auto.
  - destruct (Np.len (doc :: docs) >? 0) eqn:Hcount.
    + simpl in Hinit. injection Hinit as <-. simpl. auto.
    + unfold Np.len in Hcount. simpl length in Hcount.
      rewrite Z.gtb_ltb in Hcount. apply Z.ltb_ge in Hcount. lia.
Qed.

(** C8: on an empty collection the constructor leaves [index_names]
    unassigned, and the query raises instead of returning nothing. *)
Lemma find_word_matches_empty_collection :
  exists self : SignatureCollection,
    init (PyCollection []) (PyInt 16) (PyInt 63) (PyFloat (6 / 10)) = Ok self /\
    self_collection self = [] /\
    forall record : document,
      find_word_matches self record = Raise AttributeError.
Proof.
  unfold init. destruct (decide (6 / 10 < 0)%R) as [Hneg|_]; [lra|].
  simpl. eexists. split; [reflexivity|]. split; reflexivity.
Qed.

(** With [index_names] assigned and empty, the query has no clause and,
    for the store, no document satisfies it. *)
Lemma find_word_matches_no_index_names (self : SignatureCollection)
    (record : document) :
  self_index_names self = Some [] ->
  find_word_matches self record = Ok [].
Proof.
  intros Hnames. unfold find_word_matches. rewrite Hnames. simpl.
  f_equal. unfold find_or. induction (self_collection self); auto.
Qed.

(** ** Candidate retrieval *)

Lemma elem_of_find_or (clauses : list (string * value)) (docs : list document)
    (d : document) :
  d ∈ find_or clauses docs <->
  d ∈ docs /\
  exists (name : string) (v : value), (name, v) ∈ clauses /\ d !! name = Some v.
Proof.
  unfold find_or. rewrite !list_elem_of_In, filter_In, existsb_exists.
  split.
  - intros [Hin ([name v] & Hc & Hm)]. split; [exact Hin|].
    exists name, v. rewrite list_elem_of_In. split; [exact Hc|].
    unfold matches_clause in Hm. apply bool_decide_eq_true in Hm. exact Hm.
  - intros [Hin (name & v & Hc & Hm)]. split; [exact Hin|].
    exists (name, v). rewrite <- list_elem_of_In. split; [exact Hc|].
    unfold matches_clause. apply bool_decide_eq_true. exact Hm.
Qed.

Lemma elem_of_clauses (record : document) (index_names : list string) :
  forall clauses : list (string * value),
    mapM (fun name => v ← getitem record name; Ok (name, v)) index_names
    = Ok clauses ->
    forall (name : string) (v : value),
      (name, v) ∈ clauses <-> name ∈ index_names /\ record !! name = Some v.
Proof.
  induction index_names as [|n rest IH]; intros clauses Hm name v;
    simpl in Hm.
  - injection Hm as <-. rewrite !elem_of_nil. tauto.
  - unfold getitem in Hm. destruct (record !! n) as [vn|] eqn:Hn;
      [|discriminate]. simpl in Hm.
    destruct (mapM _ rest) as [cs|] eqn:Hrest; [|discriminate].
    simpl in Hm. injection Hm as <-.
    rewrite !elem_of_cons, (IH cs eq_refl). split.
    + intros [[= -> ->]|[Hin Hv]]; auto.
    + intros [[->|Hin] Hv]; [left; congruence | right; auto].
Qed.

(** What [find_word_matches] returns, for any record and any object whose
    [index_names] is assigned: the stored documents that agree with the
    record on one of the indexed fields. *)
Lemma find_word_matches_spec (self : SignatureCollection) (record : document)
    (docs : list document) (d : document) :
  find_word_matches self record = Ok docs ->
  d ∈ docs <->
  d ∈ self_collection self /\
  exists (index_names : list string) (name : string) (v : value),
    self_index_names self = Some index_names /\
    name ∈ index_names /\ record !! name = Some v /\ d !! name = Some v.
Proof.
  unfold find_word_matches.
  destruct (self_index_names self) as [names|]; [|discriminate].
  destruct (mapM _ names) as [clauses|] eqn:Hclauses; [|discriminate].
  simpl. intros [= <-]. rewrite elem_of_find_or. split.
  - intros [Hin (name & v & Hc & Hd)]. split; [exact Hin|].
    apply (elem_of_clauses _ _ _ Hclauses) in Hc as [Hname Hr].
    exists names, name, v. auto.
  - intros [Hin (names' & name & v & [= <-] & Hname & Hr & Hd)].
    split; [exact Hin|]. exists name, v. split; [|exact Hd].
    apply (elem_of_clauses _ _ _ Hclauses). auto.
Qed.

Section Retrieval.

Variable generate_signature : string -> list Z.
Variable image_paths_of : string -> list string.

(** Both places that assign [index_names] keep only field names that
    contain ['simple']. *)
Lemma reachable_index_names (self : SignatureCollection)
    (index_names : list string) :
  reachable generate_signature image_paths_of self ->
  self_index_names self = Some index_names ->
  Forall (fun name => str_find name "simple" > -1) index_names.
Proof.
  intros Hreach. revert index_names.
  induction Hreach as [collection k N cutoff self Hinit
                      |self self' path _ IH Hadd
                      |self self' dir dropc bs _ IH Hadd];
    intros index_names Hnames.
  - apply init_index_names in Hinit as (docs & _ & _ & Hn).
    rewrite Hn in Hnames. destruct (head docs) as [doc|]; [|discriminate].
    injection Hnames as <-. apply Forall_forall. intros name Hin.
    apply elem_of_discover_index_names in Hin. tauto.
  - unfold add_image in Hadd.
    destruct (make_record _ self path); [|discriminate].
    simpl in Hadd. injection Hadd as <-. apply IH. exact Hnames.
  - unfold add_images in Hadd.
    destruct (range_step _ bs) as [starts|]; [|discriminate]. simpl in Hadd.
    destruct (insert_blocks _ _ _ _ _ _) as [docs|]; [|discriminate].
    simpl in Hadd. unfold find_one_index_names in Hadd.
    destruct (head docs) as [doc|]; [|discriminate].
    simpl in Hadd. injection Hadd as <-. simpl in Hnames.
    injection Hnames as <-. apply Forall_forall. intros name Hin.
    apply elem_of_discover_index_names in Hin. tauto.
Qed.

(** C5.  Every document returned by [find_word_matches] for a record
    made by [make_record] agrees with that record on a word slot: for some
    [i] below [N], the record has the field [simple_word_i] and the
    document holds the same value in it. *)
Theorem find_word_matches_shares_slot (self : SignatureCollection)
    (path : string) (record : document) (docs : list document)
    (d : document) :
  reachable generate_signature image_paths_of self ->
  make_record generate_signature self path = Ok record ->
  find_word_matches self record = Ok docs ->
  d ∈ docs ->
  d ∈ self_collection self /\
  exists (i : Z) (word : value),
    0 <= i < self_N self /\
    record !! slot_name i = Some word /\
    d !! slot_name i = Some word.
Proof.
  intros Hreach Hrec Hfind Hd.
  apply (find_word_matches_spec _ _ _ _ Hfind) in Hd
    as [Hin (names & name & v & Hnames & Hname & Hr & Hdv)].
  split; [exact Hin|].
  pose proof (reachable_index_names _ _ Hreach Hnames) as Hsimple.
  rewrite Forall_forall in Hsimple. specialize (Hsimple name Hname).
    destruct (proj1 (make_record_index_names generate_signature self path
                     record name Hrec)) as (i & Hi & ->).
  { apply elem_of_discover_index_names. split; [eauto | exact Hsimple]. }
  exists i, v. auto.
Qed.

End Retrieval.

Lemma example_reachable :
  reachable Example.generate_signature Example.image_paths_of Example.self.
Proof.
  apply (reachable_init _ _ (PyCollection [Example.stored]) (PyInt 3) (PyInt 4)
           (PyFloat (6 / 10))).
  unfold init. destruct (decide (6 / 10 < 0)%R) as [Hneg|_]; [lra|].
  reflexivity.
Defined.

Lemma find_word_matches_shares_slot_witness :
  exists (i : Z) (word : value),
    0 <= i < 4 /\
    Example.query !! slot_name i = Some word /\
    Example.stored !! slot_name i = Some word.
Proof.
  assert (Hrec : make_record Example.generate_signature Example.self "q.png"
                 = Ok Example.query) by (vm_compute; reflexivity).
  assert (Hfind : find_word_matches Example.self Example.query
                  = Ok [Example.stored]) by (vm_compute; reflexivity).
  assert (Hin : Example.stored ∈ [Example.stored]) by (apply list_elem_of_here).
  exact (proj2 (find_word_matches_shares_slot
                  Example.generate_signature Example.image_paths_of
                  Example.self "q.png" Example.query [Example.stored]
                  Example.stored example_reachable Hrec Hfind Hin)).
Defined.

(** ** Normalised distance over the reals *)

Lemma mapM_fmap {A B : Type} (f : A -> result B) (g : A -> B) (l : list A) :
  Forall (fun a => f a = Ok (g a)) l -> mapM f l = Ok (g <$> l).
Proof.
  induction 1 as [|a l Ha _ IH]; simpl; [reflexivity|].
  rewrite Ha. simpl. rewrite IH. reflexivity.
Qed.

Lemma sum_squares_cons (T : dtype) (x : elt T) (v : list (elt T)) :
  sum_squares (x :: v) = (as_float T x * as_float T x + sum_squares v)%R.
Proof. reflexivity. Qed.

Lemma sum_squares_nonneg (T : dtype) (v : list (elt T)) :
  (0 <= sum_squares v)%R.
Proof.
  induction v as [|x v IH]; simpl; [lra|].
  pose proof (Rle_0_sqr (as_float T x)) as Hx. unfold Rsqr in Hx. lra.
Qed.

Lemma norm_nonneg (T : dtype) (v : list (elt T)) : (0 <= norm v)%R.
Proof. apply sqrt_pos. Qed.

Lemma norm_sqr (T : dtype) (v : list (elt T)) :
  (norm v * norm v = sum_squares v)%R.
Proof. apply sqrt_sqrt, sum_squares_nonneg. Qed.

Lemma norm_cons (x : R) (v : list R) :
  norm (T := float64) (x :: v)
  = sqrt (x * x + norm (T := float64) v * norm (T := float64) v).
Proof. unfold norm at 1. simpl. rewrite norm_sqr. reflexivity. Qed.



Lemma norm_sub_self (v : list R) :
  norm (T := float64) (zip_with Rminus v v) = 0%R.
Proof.
  induction v as [|x v IH].
  - unfold norm. simpl. apply sqrt_0.
  - change (zip_with Rminus (x :: v) (x :: v))
      with ((x - x)%R :: zip_with Rminus v v).
    rewrite norm_cons, IH.
    replace ((x - x) * (x - x) + 0 * 0)%R with 0%R by ring. apply sqrt_0.
Qed.

Lemma norm_nonzero (v : list R) :
  Exists (fun x => x <> 0%R) v -> (0 < norm (T := float64) v)%R.
Proof.
  intros Hex. apply sqrt_lt_R0.
  induction Hex as [x v Hx|x v _ IH]; simpl.
  - pose proof (sum_squares_nonneg float64 v) as Hv.
    assert (0 < x * x)%R by nra. lra.
  - pose proof (Rle_0_sqr x) as Hx. unfold Rsqr in Hx. lra.
Qed.

Lemma row_distance_aligned (T : dtype) (vec b : list (elt T)) :
  length b = length vec ->
  row_distance vec b
  = Ok (float_div (norm (zip_with (sub T) vec b)) (norm vec + norm b)).
Proof.
  intros Hlen. unfold row_distance, broadcast_sub.
  destruct (decide _) as [_|Hne]; [reflexivity|].
  exfalso. apply Hne. symmetry. exact Hlen.
Qed.

Lemma row_distance_same_length (vec b : list R) :
  length b = length vec ->
  row_distance (T := float64) vec b
  = Ok (float_div (norm (T := float64) (zip_with Rminus vec b))
          (norm (T := float64) vec + norm (T := float64) b)).
Proof. apply (row_distance_aligned float64). Qed.

Lemma float_div_finite (x y : R) :
  y <> 0%R -> float_div x y = Finite (x / y).
Proof.
  intros Hy. unfold float_div.
  destruct (decide (y = 0%R)) as [Heq|_]; [contradiction | reflexivity].
Qed.

(** Two zero vectors: the quotient is [0 / 0], not a number. *)
Lemma row_distance_zero_vectors :
  row_distance (T := float64) [0; 0]%R [0; 0]%R = Ok NaN.
Proof.
  unfold row_distance, broadcast_sub. simpl. unfold norm. simpl.
  replace (0 * 0 + (0 * 0 + 0))%R with 0%R by ring.
  replace ((0 - 0) * (0 - 0) + ((0 - 0) * (0 - 0) + 0))%R with 0%R by ring.
  rewrite sqrt_0. unfold float_div.
  destruct (decide (0 + 0 = 0)%R) as [_|Hne]; [|lra].
  destruct (decide (0 = 0)%R) as [_|Hne]; [reflexivity | lra].
Qed.

(** ** Normalised distance of [int8] signatures *)

(** [find_matches] calls [normalized_distance] on [int8] arrays, where the
    subtraction wraps.  On [small] elements (the generator emits values
    between [-2] and [2]) the [int8] computation is the real one. *)

Lemma norm_int8_float (v : list Z) :
  norm (T := int8_t) v = norm (T := float64) (IZR <$> v).
Proof.
  unfold norm. f_equal.
  induction v as [|x v IH]; [reflexivity|].
  rewrite fmap_cons, !sum_squares_cons, IH. reflexivity.
Qed.

Lemma sub_int8_small (v b : list Z) :
  Forall small v -> Forall small b ->
  IZR <$> zip_with (sub int8_t) v b = zip_with Rminus (IZR <$> v) (IZR <$> b).
Proof.
  intros Hv. revert b.
  induction Hv as [|x v Hx _ IH]; intros b Hb; [reflexivity|].
  destruct Hb as [|y b Hy Hb]; [reflexivity|].
  simpl. rewrite IH by exact Hb. f_equal.
  unfold small in Hx, Hy.
  rewrite int8_id by (unfold Np.is_int8; lia).
  apply minus_IZR.
Qed.

Lemma row_distance_int8_small (vec b : list Z) :
  Forall small vec -> Forall small b -> length b = length vec ->
  row_distance (T := int8_t) vec b
  = row_distance (T := float64) (IZR <$> vec) (IZR <$> b).
Proof.
  intros Hv Hb Hlen.
  rewrite row_distance_same_length by (rewrite !length_fmap; exact Hlen).
  unfold row_distance, broadcast_sub.
  destruct (decide _) as [_|Hne]; [|exfalso; apply Hne; symmetry; exact Hlen].
  simpl. rewrite !norm_int8_float, sub_int8_small by assumption.
  reflexivity.
Qed.

(** ** Ranking *)

Lemma find_or_nil (docs : list document) : find_or [] docs = [].
Proof.
  unfold find_or. induction docs as [|d docs IH]; [reflexivity|].
  simpl. exact IH.
Qed.

(** A cursor that yields a document was made from at least one clause. *)
Lemma list_cursor_candidates (self : SignatureCollection) (record : document)
    (t : list document) :
  find_word_matches self record = Ok t -> t <> [] ->
  list_cursor self t = Ok t.
Proof.
  unfold find_word_matches, list_cursor.
  destruct (self_index_names self) as [[|name names]|]; simpl.
  - rewrite find_or_nil. intros [= <-] Hne. contradiction.
  - reflexivity.
  - discriminate.
Qed.

Lemma list_cursor_names (self : SignatureCollection) (t : list document)
    (index_names : list string) :
  self_index_names self = Some index_names -> index_names <> [] ->
  list_cursor self t = Ok t.
Proof.
  unfold list_cursor. intros -> Hne.
  destruct index_names; [contradiction | reflexivity].
Qed.

Section RankingFacts.

Variable generate_signature : string -> list Z.

Lemma signature_array_ok (n : nat) (sigs : list (list Z)) :
  sigs <> [] ->
  Forall (fun l => length l = n) sigs ->
  signature_array (VInts <$> sigs)
  = Ok ((fun l : list Z => Np.int8 <$> l) <$> sigs).
Proof.
  intros Hne Hlen. unfold signature_array.
  rewrite (mapM_fmap _ (fun v => Np.int8 <$> match v with
                                             | VInts l => l
                                             | VStr _ => []
                                             end)).
  2:{ apply Forall_fmap, Forall_forall. intros l _. reflexivity. }
  simpl. rewrite <- list_fmap_compose.
  destruct sigs as [|r rest]; [contradiction|].
  apply Forall_cons in Hlen as [Hr Hrest].
  rewrite !fmap_cons.
  replace (forallb _ _) with true; [reflexivity|].
  symmetry. apply forallb_forall. intros r' Hin.
  apply list_elem_of_In, list_elem_of_fmap in Hin as (l & -> & Hl).
  rewrite Forall_forall in Hrest. simpl.
  apply Nat.eqb_eq. rewrite !length_fmap, Hr. apply Hrest. exact Hl.
Qed.

Lemma combine_fmap {A B C : Type} (f : A -> B) (g : A -> C) (l : list A) :
  combine (f <$> l) (g <$> l) = (fun a => (f a, g a)) <$> l.
Proof.
  induction l as [|a l IH]; [reflexivity|].
  rewrite !fmap_cons. simpl. rewrite IH. reflexivity.
Qed.

(** When there is a candidate, and every candidate holds a path and a
    signature as long as the query's, the distances are computed: one per
    candidate, in store order. *)
Lemma candidate_distances_total (self : SignatureCollection) (path : string)
    (record : document) (t : list document) :
  make_record generate_signature self path = Ok record ->
  find_word_matches self record = Ok t ->
  t <> [] ->
  Forall (fun doc =>
            is_Some (doc !! "path") /\
            exists l, doc !! "signature" = Some (VInts l) /\
                      length l = length (generate_signature path)) t ->
  candidate_distances generate_signature self path
  = Ok (candidate_score generate_signature path <$> t).
Proof.
  intros Hrec Hfind Hne Hdocs.
  pose proof (make_record_signature generate_signature self path record Hrec)
    as Hsig.
  unfold candidate_distances. rewrite Hrec. simpl. rewrite Hfind. simpl.
  rewrite (list_cursor_candidates self record t Hfind Hne). simpl.
  rewrite (mapM_fmap (fun x : document => getitem x "signature")
             (fun doc => VInts (doc_signature doc))).
  2:{ eapply Forall_impl; [exact Hdocs|].
      intros doc (_ & l & Hl & _). unfold getitem, doc_signature.
      rewrite Hl. reflexivity. }
  simpl. rewrite (list_fmap_compose doc_signature VInts).
  rewrite (signature_array_ok (length (generate_signature path))).
  2:{ destruct t; [contradiction | discriminate]. }
  2:{ apply Forall_fmap. eapply Forall_impl; [exact Hdocs|].
      intros doc (_ & l & Hl & Hlen). simpl. unfold doc_signature.
      rewrite Hl. exact Hlen. }
  simpl.
  rewrite (mapM_fmap (fun x : document => getitem x "path") doc_path).
  2:{ eapply Forall_impl; [exact Hdocs|].
      intros doc ([p Hp] & _). unfold getitem, doc_path.
      rewrite Hp. reflexivity. }
  simpl. unfold getitem. rewrite Hsig. simpl.
  unfold normalized_distance.
  rewrite (mapM_fmap _
             (fun b => float_div
                         (norm (T := int8_t)
                            (zip_with (sub int8_t)
                               (Np.int8 <$> generate_signature path) b))
                         (norm (T := int8_t)
                            (Np.int8 <$> generate_signature path)
                          + norm (T := int8_t) b))).
  2:{ apply Forall_fmap, Forall_fmap. eapply Forall_impl; [exact Hdocs|].
      intros doc (_ & l & Hl & Hlen). simpl.
      apply (row_distance_aligned int8_t). unfold doc_signature.
      rewrite Hl, !length_fmap. exact Hlen. }
  cbn [mbind result_bind]. f_equal.
  rewrite <- !list_fmap_compose. apply combine_fmap.
Qed.

(** The cutoff keeps the scored candidates that are strictly below it. *)
Lemma find_matches_filter (self : SignatureCollection) (path : string)
    (scored : list (float64_value * value)) :
  candidate_distances generate_signature self path = Ok scored ->
  exists matches : list (float64_value * value),
    find_matches generate_signature self path = Ok matches /\
    forall (d : float64_value) (p : value),
      (d, p) ∈ matches <->
      (d, p) ∈ scored /\ float_lt d (self_distance_cutoff self).
Proof.
  intros Hscored. eexists. split.
  { unfold find_matches. rewrite Hscored. reflexivity. }
  intros d p. rewrite !list_elem_of_In, filter_In. simpl.
  rewrite bool_decide_eq_true. reflexivity.
Qed.

End RankingFacts.

Lemma lookup_combine {A B : Type} (l : list A) (k : list B) (j : nat) :
  combine l k !! j
  = match l !! j, k !! j with
    | Some a, Some b => Some (a, b)
    | _, _ => None
    end.
Proof.
  revert k j. induction l as [|a l IH]; intros [|b k] [|j]; simpl;
    try reflexivity.
  - destruct (l !! j); reflexivity.
  - apply IH.
Qed.

Section Cutoff.

Variable generate_signature : string -> list Z.
Variable distance : list (list Z) -> list Z -> result (list float64_value).

(** When there is a candidate, every candidate holds a path and a signature
    as long as the query's, and the distance routine returns [ds], the
    scored candidates are [zip(ds, paths)]. *)
Lemma candidate_distances_with_total (self : SignatureCollection)
    (path : string) (record : document) (t : list document)
    (ds : list float64_value) :
  make_record generate_signature self path = Ok record ->
  find_word_matches self record = Ok t ->
  t <> [] ->
  Forall (fun doc =>
            is_Some (doc !! "path") /\
            exists l, doc !! "signature" = Some (VInts l) /\
                      length l = length (generate_signature path)) t ->
  distance ((fun doc => Np.int8 <$> doc_signature doc) <$> t)
    (Np.int8 <$> generate_signature path) = Ok ds ->
  candidate_distances_with generate_signature distance self path
  = Ok (combine ds (doc_path <$> t)).
Proof.
  intros Hrec Hfind Hne Hdocs Hds.
  pose proof (make_record_signature generate_signature self path record Hrec)
    as Hsig.
  unfold candidate_distances_with. rewrite Hrec. simpl. rewrite Hfind. simpl.
  rewrite (list_cursor_candidates self record t Hfind Hne). simpl.
  rewrite (mapM_fmap (fun x : document => getitem x "signature")
             (fun doc => VInts (doc_signature doc))).
  2:{ eapply Forall_impl; [exact Hdocs|].
      intros doc (_ & l & Hl & _). unfold getitem, doc_signature.
      rewrite Hl. reflexivity. }
  simpl. rewrite (list_fmap_compose doc_signature VInts).
  rewrite (signature_array_ok (length (generate_signature path))).
  2:{ destruct t; [contradiction | discriminate]. }
  2:{ apply Forall_fmap. eapply Forall_impl; [exact Hdocs|].
      intros doc (_ & l & Hl & Hlen). simpl. unfold doc_signature.
      rewrite Hl. exact Hlen. }
  simpl.
  rewrite (mapM_fmap (fun x : document => getitem x "path") doc_path).
  2:{ eapply Forall_impl; [exact Hdocs|].
      intros doc ([p Hp] & _). unfold getitem, doc_path.
      rewrite Hp. reflexivity. }
  simpl. unfold getitem. rewrite Hsig. simpl.
  rewrite <- list_fmap_compose.
  change ((fun l : list Z => Np.int8 <$> l) ∘ doc_signature)
    with (fun doc : document => Np.int8 <$> doc_signature doc).
  rewrite Hds. reflexivity.
Qed.

(** C7.  [find_matches] admits a candidate into its result exactly when
    the distance that [normalized_distance] returned for it is a number
    strictly below [distance_cutoff]: a candidate at distance
    [distance_cutoff] is left out, so is one whose distance is infinite or
    not a number, and the result holds nothing but admitted candidates.
    The distance routine is a parameter: the statement holds of whatever
    values it returns, the rounded ones of binary64 included.  (The
    candidates are those of [find_word_matches]; the call returns when there
    is one, each holds a path and a signature as long as the query's, and
    the routine returns one distance per candidate.) *)
Theorem find_matches_cutoff (self : SignatureCollection) (path : string)
    (record : document) (t : list document) (ds : list float64_value) :
  make_record generate_signature self path = Ok record ->
  find_word_matches self record = Ok t ->
  t <> [] ->
  Forall (fun doc =>
            is_Some (doc !! "path") /\
            exists l, doc !! "signature" = Some (VInts l) /\
                      length l = length (generate_signature path)) t ->
  distance ((fun doc => Np.int8 <$> doc_signature doc) <$> t)
    (Np.int8 <$> generate_signature path) = Ok ds ->
  length ds = length t ->
  exists matches : list (float64_value * value),
    find_matches_with generate_signature distance self path = Ok matches /\
    (forall (j : nat) (doc : document) (x : R),
       t !! j = Some doc -> ds !! j = Some (Finite x) ->
       (Finite x, doc_path doc) ∈ matches <->
       (x < self_distance_cutoff self)%R) /\
    (forall (j : nat) (doc : document),
       t !! j = Some doc ->
       ds !! j = Some (Finite (self_distance_cutoff self)) ->
       (Finite (self_distance_cutoff self), doc_path doc) ∉ matches) /\
    (forall (j : nat) (doc : document) (d : float64_value),
       t !! j = Some doc -> ds !! j = Some d ->
       d = PosInf \/ d = NaN ->
       (d, doc_path doc) ∉ matches) /\
    (forall (d : float64_value) (p : value), (d, p) ∈ matches ->
       exists (j : nat) (doc : document) (x : R),
         t !! j = Some doc /\ ds !! j = Some d /\ p = doc_path doc /\
         d = Finite x /\ (x < self_distance_cutoff self)%R).
Proof.
  intros Hrec Hfind Hne Hdocs Hds Hlen.
  pose proof (candidate_distances_with_total self path record t ds
                Hrec Hfind Hne Hdocs Hds) as Hscored.
  set (cutoff := self_distance_cutoff self).
  set (matches := List.filter
                    (fun dp : float64_value * value =>
                       bool_decide (float_lt dp.1 cutoff))
                    (combine ds (doc_path <$> t))).
  assert (Hmem : forall (d : float64_value) (p : value),
            (d, p) ∈ matches <->
            (exists (j : nat) (doc : document),
                t !! j = Some doc /\ ds !! j = Some d /\ p = doc_path doc) /\
            float_lt d cutoff).
  { intros d p. unfold matches.
    rewrite list_elem_of_In, filter_In, <- list_elem_of_In. simpl.
    rewrite bool_decide_eq_true, list_elem_of_lookup.
    apply and_iff_compat_r. split.
    - intros [j Hj]. rewrite lookup_combine, list_lookup_fmap in Hj.
      destruct (ds !! j) as [d'|] eqn:Hd; [|discriminate].
      destruct (t !! j) as [doc|] eqn:Hdoc; [|discriminate].
      simpl in Hj. injection Hj as -> <-. eauto.
    - intros (j & doc & Hdoc & Hd & ->). exists j.
      rewrite lookup_combine, list_lookup_fmap, Hd, Hdoc. reflexivity. }
  exists matches. split.
  { unfold find_matches_with. rewrite Hscored. reflexivity. }
  split; [|split; [|split]].
  - intros j doc x Hdoc Hd. rewrite Hmem. simpl. split; [tauto|].
    intros Hlt. split; [eauto | exact Hlt].
  - intros j doc Hdoc Hd Hin. apply Hmem in Hin as [_ Hlt].
    simpl in Hlt. lra.
  - intros j doc d Hdoc Hd [->| ->] Hin; apply Hmem in Hin as [_ []].
  - intros d p Hin. apply Hmem in Hin as [(j & doc & Hdoc & Hd & ->) Hlt].
    destruct d as [x| |]; simpl in Hlt; try contradiction.
    exists j, doc, x. eauto 10.
Qed.

End Cutoff.

(** With the exact distance for [distance], [find_matches_with] is
    [find_matches]. *)
Lemma find_matches_with_exact (generate_signature : string -> list Z)
    (self : SignatureCollection) (path : string) :
  find_matches_with generate_signature (normalized_distance (T := int8_t))
    self path
  = find_matches generate_signature self path.
Proof. reflexivity. Qed.


(** Subtracting an [int8] vector from itself gives the zero vector. *)
Lemma norm_sub_self_int8 (v : list Z) :
  norm (T := int8_t) (zip_with (sub int8_t) v v) = 0%R.
Proof.
  unfold norm.
  replace (sum_squares (T := int8_t) (zip_with (sub int8_t) v v)) with 0%R;
    [apply sqrt_0|].
  induction v as [|x v IH]; [reflexivity|].
  change (zip_with (sub int8_t) (x :: v) (x :: v))
    with (sub int8_t x x :: zip_with (sub int8_t) v v).
  rewrite sum_squares_cons, <- IH. simpl.
  rewrite Z.sub_diag. change (Np.int8 0) with 0. ring.
Qed.

(** The query of the example: the stored image is the only candidate, at
    distance [0]. *)
Lemma example_candidate_distances :
  candidate_distances Example.generate_signature Example.self "q.png"
  = Ok [(Finite 0, VStr "a.png")].
Proof.
  set (q := Np.int8 <$> Example.signature).
  transitivity
    (Ok (A := list (float64_value * value))
       [(float_div (norm (T := int8_t) (zip_with (sub int8_t) q q))
           (norm (T := int8_t) q + norm (T := int8_t) q), VStr "a.png")]);
    [reflexivity|].
  assert (Hq : (0 < norm (T := int8_t) q)%R).
  { replace q with [2; -1; 0; 3; -4; 1; 0; 2] by reflexivity.
    apply sqrt_lt_R0. simpl. lra. }
  rewrite norm_sub_self_int8, float_div_finite by lra.
  rewrite Rdiv_0_l. reflexivity.
Qed.

(** Querying with the signature of the stored image returns that image,
    at distance [0]. *)
Lemma example_find_matches :
  find_matches Example.generate_signature Example.self "q.png"
  = Ok [(Finite 0, VStr "a.png")].
Proof.
  unfold find_matches. rewrite example_candidate_distances. simpl.
  rewrite bool_decide_eq_true_2; [reflexivity|]. simpl. lra.
Qed.

(** Without any candidate the array of signatures is one-dimensional and
    the distance computation raises. *)
Lemma find_matches_no_candidates (generate_signature : string -> list Z)
    (self : SignatureCollection) (path : string) (record : document)
    (index_names : list string) :
  make_record generate_signature self path = Ok record ->
  self_index_names self = Some index_names ->
  index_names <> [] ->
  find_word_matches self record = Ok [] ->
  find_matches generate_signature self path = Raise ValueError.
Proof.
  intros Hrec Hnames Hne Hfind. unfold find_matches, candidate_distances.
  rewrite Hrec. simpl. rewrite Hfind. simpl.
  rewrite (list_cursor_names self [] index_names Hnames Hne). reflexivity.
Qed.

(** X21.  On an object whose index names are the empty list,
    [find_word_matches] builds its cursor without error, and [find_matches]
    raises [OperationFailure] when it reads the cursor: the query has no
    clause, which the server refuses. *)
Theorem find_matches_empty_query (generate_signature : string -> list Z)
    (self : SignatureCollection) (path : string) (record : document) :
  make_record generate_signature self path = Ok record ->
  self_index_names self = Some [] ->
  find_word_matches self record = Ok [] /\
  find_matches generate_signature self path = Raise OperationFailure.
Proof.
  intros Hrec Hnames.
  assert (Hfind : find_word_matches self record = Ok []).
  { unfold find_word_matches. rewrite Hnames. simpl.
    rewrite find_or_nil. reflexivity. }
  split; [exact Hfind|].
  unfold find_matches, candidate_distances.
  rewrite Hrec. simpl. rewrite Hfind. simpl.
  unfold list_cursor. rewrite Hnames. reflexivity.
Qed.

Lemma find_matches_empty_query_witness :
  add_images Example.generate_signature Example.image_paths_of
    Example2.wordless "images" true 100
  = Ok {| self_collection := [Example2.wordless_record;
                              <["path" := VStr "b.png"]> Example2.wordless_record];
          self_k := 3; self_N := 0; self_distance_cutoff := (6 / 10)%R;
          self_index_names := Some [] |} /\
  find_word_matches Example2.wordless Example2.wordless_record = Ok [] /\
  find_matches Example.generate_signature Example2.wordless "a.png"
  = Raise OperationFailure.
Proof.
  split; [vm_compute; reflexivity|].
  apply (find_matches_empty_query Example.generate_signature Example2.wordless
           "a.png" Example2.wordless_record).
  - vm_compute. reflexivity.
  - reflexivity.
Defined.

Lemma find_matches_cutoff_witness :
  exists matches : list (float64_value * value),
    find_matches_with Example.generate_signature
      (normalized_distance (T := int8_t)) Example.self "q.png" = Ok matches /\
    (Finite 0, VStr "a.png") ∈ matches.
Proof.
  assert (Hrec : make_record Example.generate_signature Example.self "q.png"
                 = Ok Example.query) by (vm_compute; reflexivity).
  assert (Hfind : find_word_matches Example.self Example.query
                  = Ok [Example.stored]) by (vm_compute; reflexivity).
  assert (Hds : normalized_distance (T := int8_t)
                  ((fun doc => Np.int8 <$> doc_signature doc)
                     <$> [Example.stored])
                  (Np.int8 <$> Example.generate_signature "q.png")
                = Ok [Finite 0]).
  { set (q := Np.int8 <$> Example.signature).
    transitivity
      (Ok (A := list float64_value)
         [float_div (norm (T := int8_t) (zip_with (sub int8_t) q q))
            (norm (T := int8_t) q + norm (T := int8_t) q)]);
      [reflexivity|].
    assert (Hq : (0 < norm (T := int8_t) q)%R).
    { replace q with [2; -1; 0; 3; -4; 1; 0; 2] by reflexivity.
      apply sqrt_lt_R0. simpl. lra. }
    rewrite norm_sub_self_int8, float_div_finite by lra.
    rewrite Rdiv_0_l. reflexivity. }
  destruct (find_matches_cutoff Example.generate_signature
              (normalized_distance (T := int8_t)) Example.self "q.png"
              Example.query [Example.stored] [Finite 0] Hrec Hfind)
    as (matches & Hok & Hiff & _).
  - discriminate.
  - apply Forall_cons. split; [|apply Forall_nil; exact I].
    split; [eexists; reflexivity|].
    exists Example.signature. split; reflexivity.
  - exact Hds.
  - reflexivity.
  - exists matches. split; [exact Hok|].
    apply (Hiff 0%nat Example.stored 0%R eq_refl eq_refl).
    change (self_distance_cutoff Example.self) with (6 / 10)%R. lra.
Defined.

(** The binary64 run on the boundary: the exact distance of the stored
    signature [[3, 2]] to the query [[9, 6]] is the cutoff [1/2], and
    [find_matches] in exact arithmetic leaves the candidate out; binary64
    rounds the distance to [0.49999999999999994], below the cutoff, and the
    candidate is admitted. *)
Lemma find_matches_boundary_rounding :
  (exists f : PrimFloat.float,
     Float64.row_distance [9; 6] [3; 2] = Ok f /\
     FloatOps.Prim2SF f = SpecFloat.S754_finite false 9007199254740991 (-54)) /\
  find_matches_with Boundary.generate_signature Float64.normalized_distance
    Boundary.self "q.png"
  = Ok [(Finite (9007199254740991 / 18014398509481984), VStr "s.png")] /\
  find_matches Boundary.generate_signature Boundary.self "q.png" = Ok [].
Proof.
  split; [eexists; split; vm_compute; reflexivity|]. split.
  - unfold find_matches_with.
    replace (candidate_distances_with Boundary.generate_signature
               Float64.normalized_distance Boundary.self "q.png")
      with (Ok (A := list (float64_value * value))
              [(Finite (9007199254740991 / 18014398509481984), VStr "s.png")])
      by (vm_compute; reflexivity).
    cbn [mbind result_bind List.filter fst].
    rewrite bool_decide_eq_true_2; [reflexivity|].
    change (self_distance_cutoff Boundary.self) with (1 / 2)%R. simpl. lra.
  - unfold find_matches.
    set (n := norm (T := int8_t) [6; 4]).
    set (a := norm (T := int8_t) [9; 6]).
    set (b := norm (T := int8_t) [3; 2]).
    replace (candidate_distances Boundary.generate_signature Boundary.self "q.png")
      with (Ok (A := list (float64_value * value))
              [(float_div n (a + b), VStr "s.png")])
      by reflexivity.
    assert (Hn : (n * n = 52)%R).
    { unfold n, norm. rewrite sqrt_sqrt; simpl; lra. }
    assert (Ha : (a * a = 117)%R).
    { unfold a, norm. rewrite sqrt_sqrt; simpl; lra. }
    assert (Hb : (b * b = 13)%R).
    { unfold b, norm. rewrite sqrt_sqrt; simpl; lra. }
    assert (Hn0 : (0 <= n)%R) by apply sqrt_pos.
    assert (Ha0 : (0 <= a)%R) by apply sqrt_pos.
    assert (Hb0 : (0 <= b)%R) by apply sqrt_pos.
    assert (Hab : (a * b = 39)%R).
    { apply Rsqr_inj; [apply Rmult_le_pos; assumption | lra |].
      unfold Rsqr. replace (a * b * (a * b))%R with (a * a * (b * b))%R by ring.
      rewrite Ha, Hb. lra. }
    assert (Hsum : (a + b = 2 * n)%R).
    { apply Rsqr_inj; [lra | lra |].
      unfold Rsqr.
      replace ((a + b) * (a + b))%R with (a * a + b * b + 2 * (a * b))%R by ring.
      replace (2 * n * (2 * n))%R with (4 * (n * n))%R by ring.
      rewrite Ha, Hb, Hab, Hn. lra. }
    assert (Hnpos : (0 < n)%R).
    { destruct (Rle_lt_or_eq_dec 0 n Hn0) as [Hlt|Heq]; [exact Hlt|].
      rewrite <- Heq in Hn. lra. }
    rewrite Hsum, float_div_finite by lra.
    cbn [mbind result_bind List.filter fst].
    rewrite bool_decide_eq_false_2; [reflexivity|].
    change (self_distance_cutoff Boundary.self) with (1 / 2)%R. simpl.
    replace (n / (2 * n))%R with (1 / 2)%R by (field; lra). lra.
Qed.

(** * Further properties of the module *)

(** ** Words, element by element *)

Lemma get_words_inv (array : list Z) (k N : Z) (words : list (list Z)) :
  get_words array k N = Ok words ->
  0 <= k <= Np.len array /\ 0 <= N <= Np.len array.
Proof.
  unfold get_words.
  destruct (Z.ltb_spec N 0) as [|HN]; [discriminate|].
  destruct (Z.gtb_spec k (Np.len array)) as [|Hk]; [discriminate|].
  assert (Hlen : Np.len (Np.linspace_int (Np.len array) N) = N).
  { unfold Np.len at 1. rewrite length_linspace_int. lia. }
  rewrite Hlen.
  destruct (Z.gtb_spec N (Np.len array)) as [|HNL]; [discriminate|].
  destruct (Z.ltb_spec k 0) as [|Hk0]; [discriminate|].
  intros _. lia.
Qed.

Lemma get_words_raise (array : list Z) (k N : Z) (e : exception) :
  get_words array k N = Raise e -> e = ValueError.
Proof.
  unfold get_words.
  repeat (destruct (_ : bool); [intros [= <-]; reflexivity|]).
  discriminate.
Qed.

Lemma word_at_lookup (array : list Z) (k pos : Z) (j : nat) :
  0 <= pos -> Z.of_nat j < k ->
  word_at array k pos !! j
  = Some (Np.int8 (default 0 (array !! (Z.to_nat pos + j)%nat))).
Proof.
  intros Hpos Hj. unfold word_at.
  destruct (Z.leb_spec (pos + k) (Np.len array)) as [Hle|Hgt];
    rewrite list_lookup_fmap; unfold Np.slice, Np.resize, Np.slice_from.
  - rewrite lookup_take_lt by lia. rewrite lookup_drop.
    destruct (lookup_lt_is_Some_2 array (Z.to_nat pos + j)) as [x ->];
      [unfold Np.len in Hle; lia | reflexivity].
  - rewrite lookup_take_lt by lia.
    destruct (decide (Z.to_nat pos + j < length array)%nat) as [Hin|Hout].
    + rewrite lookup_app_l by (rewrite length_drop; lia).
      rewrite lookup_drop.
      destruct (lookup_lt_is_Some_2 array (Z.to_nat pos + j) Hin) as [x ->].
      reflexivity.
    + rewrite lookup_app_r by (rewrite length_drop; lia).
      rewrite lookup_replicate_2 by (rewrite length_drop; lia).
      rewrite (lookup_ge_None_2 array) by lia. reflexivity.
Qed.

(** X1.  Element [j] of the word that starts at [pos] is the signature
    element at [pos + j], converted to [int8], and [0] past the end of the
    signature. *)
Theorem get_words_element (array : list Z) (k N : Z) (words : list (list Z))
    (i j : nat) (pos : Z) :
  get_words array k N = Ok words ->
  Np.linspace_int (Np.len array) N !! i = Some pos ->
  Z.of_nat j < k ->
  exists w : list Z,
    words !! i = Some w /\
    w !! j = Some (Np.int8 (default 0 (array !! (Z.to_nat pos + j)%nat))).
Proof.
  intros Hwords Hi Hj.
  destruct (get_words_inv _ _ _ _ Hwords) as [Hk HN].
  rewrite get_words_ok in Hwords by assumption. injection Hwords as <-.
  exists (word_at array k pos). rewrite list_lookup_fmap, Hi.
  split; [reflexivity|].
  apply word_at_lookup; [|exact Hj].
  apply lookup_linspace_int in Hi as [-> Hi].
  apply binary64_point_nonneg; [unfold Np.len|..]; lia.
Qed.

Lemma get_words_element_witness :
  exists (words : list (list Z)) (w : list Z),
    get_words Example.ramp 1 22 = Ok words /\
    Np.linspace_int 30 22 !! 11%nat = Some 14 /\
    words !! 11%nat = Some w /\
    w !! 0%nat = Some 14.
Proof.
  assert (exists words, get_words Example.ramp 1 22 = Ok words)
    as [words Hwords] by (eexists; vm_compute; reflexivity).
  destruct (get_words_element Example.ramp 1 22 words 11%nat 0%nat 14
              Hwords eq_refl ltac:(lia))
    as (w & Hw & Hw0).
  exists words, w. split; [exact Hwords|]. split; [reflexivity|].
  split; [exact Hw | exact Hw0].
Defined.

(** ** Quantisation and extraction commute *)

Lemma quantize_int8 (array : list Z) : Forall Np.is_int8 (quantize array).
Proof.
  rewrite quantize_sgn. apply Forall_fmap, Forall_forall.
  intros x _. simpl. unfold Np.is_int8. lia.
Qed.

Lemma quantize_word_at (array : list Z) (k pos : Z) :
  Forall Np.is_int8 array ->
  quantize (word_at array k pos) = word_at (quantize array) k pos.
Proof.
  intros Harr. pose proof (quantize_int8 array) as Hq.
  assert (Hlen : Np.len (quantize array) = Np.len array).
  { unfold Np.len. rewrite quantize_sgn, length_fmap. reflexivity. }
  unfold word_at. rewrite Hlen.
  destruct (pos + k <=? Np.len array).
  - unfold Np.slice, Np.slice_from.
    rewrite !int8_fmap_id
      by (apply Forall_int8_take, Forall_int8_drop; assumption).
    rewrite !quantize_sgn, fmap_take, fmap_drop. reflexivity.
  - unfold Np.resize, Np.slice_from.
    assert (Hpad : forall a : list Z, Forall Np.is_int8 a ->
              Forall Np.is_int8
                (take (Z.to_nat k)
                   (drop (Z.to_nat pos) a ++ replicate (Z.to_nat k) 0))).
    { intros a Ha. apply Forall_int8_take, Forall_app. split.
      - apply Forall_int8_drop, Ha.
      - apply Forall_replicate. unfold Np.is_int8. lia. }
    rewrite !int8_fmap_id by (apply Hpad; assumption).
    rewrite !quantize_sgn, fmap_take, fmap_app, fmap_drop, fmap_replicate.
    reflexivity.
Qed.

(** X2.  On a signature of [int8] elements, quantising the words is
    extracting the words of the quantised signature: the word fields of a
    record depend on the signs of the signature only. *)
Theorem max_contrast_get_words (array : list Z) (k N : Z)
    (words : list (list Z)) :
  Forall Np.is_int8 array ->
  get_words array k N = Ok words ->
  get_words (quantize array) k N = Ok (max_contrast words).
Proof.
  intros Harr Hwords.
  destruct (get_words_inv _ _ _ _ Hwords) as [Hk HN].
  assert (Hlen : Np.len (quantize array) = Np.len array).
  { unfold Np.len. rewrite quantize_sgn, length_fmap. reflexivity. }
  rewrite get_words_ok in Hwords by assumption. injection Hwords as <-.
  rewrite get_words_ok by (rewrite Hlen; assumption).
  rewrite Hlen, max_contrast_rows, <- list_fmap_compose. f_equal.
  apply list_fmap_ext. intros _ pos _. simpl. symmetry.
  apply quantize_word_at. exact Harr.
Qed.

Lemma max_contrast_get_words_witness :
  get_words (quantize [2; -1; 0; 3; -4; 1; 0; 2]) 3 4
  = Ok (max_contrast [[2; -1; 0]; [0; 3; -4]; [-4; 1; 0]; [0; 2; 0]]).
Proof.
  apply (max_contrast_get_words [2; -1; 0; 3; -4; 1; 0; 2] 3 4).
  - repeat constructor; vm_compute; discriminate.
  - reflexivity.
Defined.

(** ** When a record can be made *)

Section RecordErrors.

Variable generate_signature : string -> list Z.

(** X3.  [make_record] returns exactly when the word length and the word
    count of the object are between [0] and the length of the image's
    signature; otherwise it raises [ValueError].  The loop over the word
    slots never leaves the array of words. *)
Theorem make_record_returns_iff (self : SignatureCollection) (path : string) :
  let L := Np.len (generate_signature path) in
  (succeeds (make_record generate_signature self path) <->
   0 <= self_k self <= L /\ 0 <= self_N self <= L) /\
  (~ (0 <= self_k self <= L /\ 0 <= self_N self <= L) ->
   make_record generate_signature self path = Raise ValueError).
Proof.
  cbv zeta. split; [split|].
  - intros [record Hrec].
    destruct (make_record_words _ _ _ _ Hrec) as [words Hwords].
    apply (get_words_inv _ _ _ _ Hwords).
  - intros [Hk HN].
    apply (make_record_ok generate_signature self path
             (word_at (generate_signature path) (self_k self)
                <$> Np.linspace_int (Np.len (generate_signature path))
                      (self_N self))).
    apply get_words_ok; assumption.
  - intros Hbad. unfold make_record.
    destruct (get_words _ _ _) as [words|e] eqn:Hwords.
    + exfalso. apply Hbad. apply (get_words_inv _ _ _ _ Hwords).
    + simpl. f_equal. apply (get_words_raise _ _ _ _ Hwords).
Qed.

End RecordErrors.

Lemma make_record_returns_iff_witness :
  make_record Example.generate_signature
    {| self_collection := []; self_k := 16; self_N := 63;
       self_distance_cutoff := (6 / 10)%R; self_index_names := None |}
    "a.png"
  = Raise ValueError.
Proof.
  apply (make_record_returns_iff Example.generate_signature).
  vm_compute. intros [[_ Hk] _]. apply Hk. reflexivity.
Defined.

(** ** Sequences of fallible calls *)

Lemma mapM_app {A B : Type} (f : A -> result B) (l1 l2 : list A) :
  mapM f (l1 ++ l2)
  = (r1 ← mapM f l1; r2 ← mapM f l2; Ok (r1 ++ r2)).
Proof.
  induction l1 as [|a l1 IH]; simpl.
  - destruct (mapM f l2); reflexivity.
  - destruct (f a) as [b|e]; simpl; [|reflexivity].
    rewrite IH. destruct (mapM f l1) as [r1|e]; simpl; [|reflexivity].
    destruct (mapM f l2); reflexivity.
Qed.

Lemma mapM_lookup {A B : Type} (f : A -> result B) (l : list A) :
  forall r : list B,
    mapM f l = Ok r ->
    length r = length l /\
    forall (i : nat) (a : A), l !! i = Some a ->
      exists b : B, f a = Ok b /\ r !! i = Some b.
Proof.
  induction l as [|a l IH]; intros r Hr; simpl in Hr.
  - injection Hr as <-. split; [reflexivity|]. intros i a' [=].
  - destruct (f a) as [b|] eqn:Hb; [|discriminate]. simpl in Hr.
    destruct (mapM f l) as [r'|]; [|discriminate]. simpl in Hr.
    injection Hr as <-. destruct (IH r' eq_refl) as [Hlen Hget].
    split; [simpl; congruence|].
    intros [|i] a' Hi; simpl in Hi.
    + injection Hi as <-. eauto.
    + apply Hget. exact Hi.
Qed.

Lemma mapM_succeeds {A B : Type} (f : A -> result B) (l : list A) :
  Forall (fun a => succeeds (f a)) l -> succeeds (mapM f l).
Proof.
  induction 1 as [|a l [b Hb] _ [r Hr]]; simpl.
  - eexists. reflexivity.
  - rewrite Hb. simpl. rewrite Hr. eexists. reflexivity.
Qed.

(** ** Bulk insertion *)

Section BulkInsertion.

Variable generate_signature : string -> list Z.
Variable image_paths_of : string -> list string.

(** The blocks, one after the other, are the whole list of paths: the
    loop inserts the records of all the paths in order, and stops at the
    first record that cannot be made. *)
Lemma insert_blocks_all (self : SignatureCollection) (image_paths : list string)
    (block_size : Z) :
  0 < block_size ->
  forall (fuel : nat) (i : Z) (docs : list document),
    0 <= i ->
    (Z.to_nat (Np.len image_paths - i) <= fuel)%nat ->
    insert_blocks generate_signature self image_paths block_size
      (range_from fuel i (Np.len image_paths) block_size) docs
    = (records ← mapM (make_record generate_signature self)
                   (drop (Z.to_nat i) image_paths);
       Ok (docs ++ records)).
Proof.
  intros Hbs. induction fuel as [|fuel IH]; intros i docs Hi Hfuel.
  - simpl. rewrite drop_ge by (unfold Np.len in Hfuel; lia).
    simpl. rewrite app_nil_r. reflexivity.
  - simpl. destruct (Z.ltb_spec i (Np.len image_paths)) as [Hlt|Hge].
    + simpl. unfold Np.slice, Np.slice_from.
      replace (Z.to_nat (i + block_size - i)) with (Z.to_nat block_size)
        by lia.
      rewrite <- (take_drop (Z.to_nat block_size)
                    (drop (Z.to_nat i) image_paths)) at 2.
      rewrite mapM_app.
      destruct (mapM _ (take _ _)) as [r1|e]; simpl; [|reflexivity].
      rewrite IH by lia. rewrite drop_drop.
      replace (Z.to_nat (i + block_size))
        with (Z.to_nat i + Z.to_nat block_size)%nat by lia.
      destruct (mapM _ (drop _ _)) as [r2|e]; simpl; [|reflexivity].
      rewrite app_assoc. reflexivity.
    + simpl. rewrite drop_ge by (unfold Np.len in Hge; lia).
      simpl. rewrite app_nil_r. reflexivity.
Qed.

(** [add_images] with a positive block size, in one step. *)
Lemma add_images_unfold (self : SignatureCollection) (image_dir : string)
    (drop_collection : bool) (insert_block_size : Z) :
  0 < insert_block_size ->
  add_images generate_signature image_paths_of self image_dir drop_collection
    insert_block_size
  = (records ← mapM (make_record generate_signature self)
                 (image_paths_of image_dir);
     let docs := (if drop_collection then [] else self_collection self)
                   ++ records in
     names ← find_one_index_names docs;
     Ok {| self_collection := docs;
           self_k := self_k self; self_N := self_N self;
           self_distance_cutoff := self_distance_cutoff self;
           self_index_names := Some names |}).
Proof.
  intros Hbs. unfold add_images, range_step.
  replace (insert_block_size =? 0) with false by (symmetry; apply Z.eqb_neq; lia).
  replace (insert_block_size <? 0) with false by (symmetry; apply Z.ltb_ge; lia).
  simpl. rewrite insert_blocks_all by (unfold Np.len; lia).
  simpl. destruct (mapM _ _); reflexivity.
Qed.

(** X4.  The block size of [add_images] does not change what a call that
    returns leaves behind: a call that returns with one positive block size
    returns with any other, and with the same object.  (A call that raises
    has committed the blocks inserted before the exception, which depend on
    the block size; [Raise] does not record them and nothing is stated of
    them.) *)
Theorem add_images_block_size (self : SignatureCollection) (image_dir : string)
    (drop_collection : bool) (size1 size2 : Z) (self' : SignatureCollection) :
  0 < size1 -> 0 < size2 ->
  add_images generate_signature image_paths_of self image_dir drop_collection
    size1 = Ok self' <->
  add_images generate_signature image_paths_of self image_dir drop_collection
    size2 = Ok self'.
Proof.
  intros H1 H2. rewrite !add_images_unfold by assumption. reflexivity.
Qed.

(** X5.  When every image of the directory has a signature at least as
    long as the word length and the word count, [add_images] returns, and
    the collection then holds, after the documents it kept, exactly one
    record per image, in the order of the listing; [k], [N] and the cutoff
    are unchanged.  With [drop_collection] the count is the number of
    images. *)
Theorem add_images_contents (self : SignatureCollection) (image_dir : string)
    (drop_collection : bool) (insert_block_size : Z) :
  0 < insert_block_size ->
  image_paths_of image_dir <> [] ->
  Forall (fun path =>
            0 <= self_k self <= Np.len (generate_signature path) /\
            0 <= self_N self <= Np.len (generate_signature path))
    (image_paths_of image_dir) ->
  exists (self' : SignatureCollection) (records : list document),
    add_images generate_signature image_paths_of self image_dir
      drop_collection insert_block_size = Ok self' /\
    self_collection self'
    = (if drop_collection then [] else self_collection self) ++ records /\
    length records = length (image_paths_of image_dir) /\
    (forall (i : nat) (path : string),
       image_paths_of image_dir !! i = Some path ->
       exists record : document,
         make_record generate_signature self path = Ok record /\
         records !! i = Some record) /\
    (drop_collection = true ->
     length (self_collection self') = length (image_paths_of image_dir)) /\
    self_k self' = self_k self /\ self_N self' = self_N self /\
    self_distance_cutoff self' = self_distance_cutoff self.
Proof.
  intros Hbs Hne Hvalid.
  destruct (mapM_succeeds (make_record generate_signature self)
              (image_paths_of image_dir)) as [records Hrecords].
  { eapply Forall_impl; [exact Hvalid|]. intros path [Hk HN].
    eapply make_record_ok. apply get_words_ok; [exact Hk | exact HN]. }
  destruct (mapM_lookup _ _ _ Hrecords) as [Hlen Hget].
  rewrite add_images_unfold by exact Hbs. rewrite Hrecords. simpl.
  destruct ((if drop_collection then [] else self_collection self) ++ records)
    as [|doc docs] eqn:Hdocs.
  { apply app_eq_nil in Hdocs as [_ ->].
    destruct (image_paths_of image_dir); [contradiction | discriminate Hlen]. }
  simpl. eexists. exists records. split; [reflexivity|]. simpl.
  split; [symmetry; exact Hdocs|]. split; [exact Hlen|].
  split; [exact Hget|]. split; [|auto].
  intros ->. simpl in Hdocs. rewrite Hdocs in Hlen. exact Hlen.
Qed.

End BulkInsertion.

Lemma add_images_block_size_witness :
  exists self' : SignatureCollection,
    add_images Example.generate_signature Example.image_paths_of Example.self
      "images" true 1 = Ok self' /\
    add_images Example.generate_signature Example.image_paths_of Example.self
      "images" true 100 = Ok self' /\
    length (self_collection self') = 2%nat.
Proof.
  eexists. split; [vm_compute; reflexivity|]. split; [|reflexivity].
  apply (add_images_block_size Example.generate_signature
           Example.image_paths_of Example.self "images" true 1 100);
    [lia | lia |].
  vm_compute. reflexivity.
Defined.

Lemma add_images_contents_witness :
  exists (self' : SignatureCollection) (records : list document),
    add_images Example.generate_signature Example.image_paths_of Example.self
      "images" true 100 = Ok self' /\
    self_collection self' = records /\
    length records = 2%nat.
Proof.
  destruct (add_images_contents Example.generate_signature
              Example.image_paths_of Example.self "images" true 100)
    as (self' & records & Hok & Hdocs & Hlen & _).
  - lia.
  - discriminate.
  - repeat constructor; vm_compute; discriminate.
  - exists self', records. split; [exact Hok|].
    split; [exact Hdocs | exact Hlen].
Defined.

(** ** Index names over the life of an object *)

Section IndexNames.

Variable generate_signature : string -> list Z.
Variable image_paths_of : string -> list string.

(** X6.  What [add_images] does when it inserts nothing.  A block size of
    [0] raises [ValueError].  With a non-zero block size, an empty
    directory or a negative block size inserts nothing; [add_images] then
    raises [AttributeError] if the collection is empty (dropped or empty
    before), and otherwise keeps the collection and reads the index names
    off its first document. *)
Theorem add_images_nothing_inserted (self : SignatureCollection)
    (image_dir : string) (drop_collection : bool) (insert_block_size : Z) :
  (insert_block_size = 0 ->
   add_images generate_signature image_paths_of self image_dir
     drop_collection insert_block_size = Raise ValueError) /\
  (insert_block_size <> 0 ->
   image_paths_of image_dir = [] \/ insert_block_size < 0 ->
   (drop_collection = true \/ self_collection self = [] ->
    add_images generate_signature image_paths_of self image_dir
      drop_collection insert_block_size = Raise AttributeError) /\
   (forall (doc : document) (docs : list document),
      drop_collection = false -> self_collection self = doc :: docs ->
      add_images generate_signature image_paths_of self image_dir
        drop_collection insert_block_size
      = Ok {| self_collection := doc :: docs;
              self_k := self_k self; self_N := self_N self;
              self_distance_cutoff := self_distance_cutoff self;
              self_index_names := Some (discover_index_names doc) |})).
Proof.
  split.
  - intros ->. reflexivity.
  - intros Hnz Hnone.
    assert (Hloop : forall docs : list document,
              (starts ← range_step (Np.len (image_paths_of image_dir))
                          insert_block_size;
               insert_blocks generate_signature self
                 (image_paths_of image_dir) insert_block_size starts docs)
              = Ok docs).
    { intros docs. unfold range_step.
      replace (insert_block_size =? 0) with false
        by (symmetry; apply Z.eqb_neq; exact Hnz).
      destruct (Z.ltb_spec insert_block_size 0) as [Hneg|Hpos];
        [reflexivity|].
      destruct Hnone as [->|Hneg]; [reflexivity | lia]. }
    assert (Hrun : add_images generate_signature image_paths_of self image_dir
                     drop_collection insert_block_size
                   = (names ← find_one_index_names
                                (if drop_collection then []
                                 else self_collection self);
                      Ok {| self_collection :=
                              (if drop_collection then []
                               else self_collection self);
                            self_k := self_k self; self_N := self_N self;
                            self_distance_cutoff := self_distance_cutoff self;
                            self_index_names := Some names |})).
    { unfold add_images.
      specialize (Hloop (if drop_collection then [] else self_collection self)).
      destruct (range_step _ _) as [starts|e]; simpl in *.
      - rewrite Hloop. reflexivity.
      - discriminate Hloop. }
    rewrite Hrun. split.
    + intros [->| ->]; [reflexivity|]. destruct drop_collection; reflexivity.
    + intros doc docs -> ->. reflexivity.
Qed.

Lemma add_images_index_head (self self' : SignatureCollection)
    (image_dir : string) (drop_collection : bool) (insert_block_size : Z) :
  add_images generate_signature image_paths_of self image_dir drop_collection
    insert_block_size = Ok self' ->
  exists (doc : document) (docs : list document),
    self_collection self' = doc :: docs /\
    self_index_names self' = Some (discover_index_names doc) /\
    self_k self' = self_k self /\ self_N self' = self_N self /\
    self_distance_cutoff self' = self_distance_cutoff self.
Proof.
  unfold add_images.
  destruct (range_step _ _) as [starts|]; [|discriminate]. simpl.
  destruct (insert_blocks _ _ _ _ _ _) as [docs|]; [|discriminate]. simpl.
  destruct docs as [|doc docs]; [discriminate|]. simpl.
  intros [= <-]. simpl. eauto 10.
Qed.

Lemma reachable_cutoff (self : SignatureCollection) :
  reachable generate_signature image_paths_of self ->
  (0 <= self_distance_cutoff self)%R.
Proof.
  induction 1 as [collection k N cutoff self Hinit
                 |self self' path _ IH Hadd
                 |self self' dir dropc bs _ IH Hadd].
  - unfold init in Hinit.
    destruct collection; try discriminate.
    destruct k; try discriminate.
    destruct N; try discriminate.
    destruct cutoff; try discriminate.
    destruct (decide (x < 0)%R) as [|Hge]; [discriminate|].
    destruct (Np.len docs >? 0); simpl in Hinit.
    + destruct (find_one_index_names docs); [|discriminate].
      simpl in Hinit. injection Hinit as <-. simpl. lra.
    + injection Hinit as <-. simpl. lra.
  - unfold add_image in Hadd.
    destruct (make_record _ self path); [|discriminate].
    simpl in Hadd. injection Hadd as <-. exact IH.
  - apply add_images_index_head in Hadd as (_ & _ & _ & _ & _ & _ & ->).
    exact IH.
Qed.

(** X7.  Opening the collection again gives the same object: after a
    successful [add_images], constructing a [SignatureCollection] on the
    resulting collection with the same [k], [N] and cutoff returns the very
    state [add_images] left, index names included. *)
Theorem init_after_add_images (self self' : SignatureCollection)
    (image_dir : string) (drop_collection : bool) (insert_block_size : Z) :
  reachable generate_signature image_paths_of self ->
  add_images generate_signature image_paths_of self image_dir drop_collection
    insert_block_size = Ok self' ->
  init (PyCollection (self_collection self')) (PyInt (self_k self'))
    (PyInt (self_N self')) (PyFloat (self_distance_cutoff self'))
  = Ok self'.
Proof.
  intros Hreach Hadd.
  pose proof (reachable_cutoff self Hreach) as Hcut.
  destruct (add_images_index_head _ _ _ _ _ Hadd)
    as (doc & docs & Hdocs & Hnames & _ & _ & Hc).
  rewrite <- Hc in Hcut.
  destruct self' as [coll k' N' c' names]. simpl in *. subst coll names.
  unfold init. destruct (decide (c' < 0)%R) as [Hneg|_]; [lra|].
  reflexivity.
Qed.

(** X8.  After [add_images] has filled an empty or dropped collection,
    the index names are exactly [simple_word_0] to [simple_word_{N-1}], and
    [find_word_matches] returns for every record the object makes. *)
Theorem add_images_index_names (self self' : SignatureCollection)
    (image_dir : string) (drop_collection : bool) (insert_block_size : Z) :
  0 < insert_block_size ->
  drop_collection = true \/ self_collection self = [] ->
  add_images generate_signature image_paths_of self image_dir drop_collection
    insert_block_size = Ok self' ->
  exists index_names : list string,
    self_index_names self' = Some index_names /\
    (forall name : string,
       name ∈ index_names <->
       exists i : Z, 0 <= i < self_N self /\ name = slot_name i) /\
    (forall (path : string) (record : document),
       make_record generate_signature self' path = Ok record ->
       succeeds (find_word_matches self' record)).
Proof.
  intros Hbs Hempty Hadd.
  destruct (add_images_index_head _ _ _ _ _ Hadd)
    as (doc & docs & Hdocs & Hnames & Hk & HN & _).
  rewrite add_images_unfold in Hadd by exact Hbs.
  destruct (mapM _ _) as [records|] eqn:Hrecords; [|discriminate].
  simpl in Hadd.
  assert (Hbase : (if drop_collection then [] else self_collection self) = []).
  { destruct Hempty as [->| ->]; [reflexivity|].
    destruct drop_collection; reflexivity. }
  rewrite Hbase in Hadd. simpl in Hadd.
  destruct records as [|doc' records]; [discriminate|].
  simpl in Hadd. injection Hadd as <-. simpl in *.
  injection Hdocs as <- <-.
  destruct (mapM_lookup _ _ _ Hrecords) as [Hlen Hget].
  destruct (image_paths_of image_dir) as [|path0 paths]; [discriminate|].
  destruct (Hget 0%nat path0 eq_refl) as (record0 & Hrec0 & [= <-]).
  assert (Hslots : forall name : string,
            name ∈ discover_index_names doc' <->
            exists i : Z, 0 <= i < self_N self /\ name = slot_name i).
  { intros name. apply (make_record_index_names _ _ _ _ _ Hrec0). }
  exists (discover_index_names doc'). split; [reflexivity|].
  split; [exact Hslots|].
  intros path record Hrec. unfold find_word_matches. simpl.
  destruct (mapM_succeeds
              (fun name => v ← getitem record name; Ok (name, v))
              (discover_index_names doc')) as [clauses ->].
  - apply Forall_forall. intros name Hname.
    apply Hslots in Hname as (i & Hi & ->).
    destruct (proj2 (make_record_dom _ _ _ _ (slot_name i) Hrec)) as [v Hv].
    { right. right. exists i. simpl. split; [lia | reflexivity]. }
    unfold getitem. rewrite Hv. eexists. reflexivity.
  - eexists. reflexivity.
Qed.

(** X9.  [add_image] appends one record and leaves [index_names] as it
    was.  So an object constructed on an empty collection still has no
    [index_names] after [add_image]: the collection is no longer empty, and
    [find_word_matches] raises [AttributeError]. *)
Theorem add_image_keeps_index_names (self self' : SignatureCollection)
    (path : string) :
  add_image generate_signature self path = Ok self' ->
  (exists record : document,
     make_record generate_signature self path = Ok record /\
     self_collection self' = self_collection self ++ [record]) /\
  self_index_names self' = self_index_names self /\
  (forall (k N distance_cutoff : pyobj),
     init (PyCollection []) k N distance_cutoff = Ok self ->
     self_collection self' <> [] /\
     forall record : document,
       find_word_matches self' record = Raise AttributeError).
Proof.
  unfold add_image. intros Hadd.
  destruct (make_record _ self path) as [record|] eqn:Hrec; [|discriminate].
  simpl in Hadd. injection Hadd as <-.
  split; [eauto|]. split; [reflexivity|].
  intros k N cutoff Hinit.
  apply init_index_names in Hinit as (docs & [= <-] & Hcoll & Hnames).
  split.
  - cbn [self_collection]. intros Heq. apply app_eq_nil in Heq as [_ [=]].
  - intros record'. unfold find_word_matches. cbn [self_index_names].
    rewrite Hnames. reflexivity.
Qed.

End IndexNames.

Lemma add_images_nothing_inserted_witness :
  add_images Example.generate_signature Example.image_paths_of Example.self
    "images" true 0 = Raise ValueError /\
  add_images Example.generate_signature Example.image_paths_of Example.self
    "images" true (-1) = Raise AttributeError /\
  add_images Example.generate_signature Example.image_paths_of Example.self
    "images" false (-1) = Ok Example.self.
Proof.
  split; [|split].
  - apply (add_images_nothing_inserted Example.generate_signature
             Example.image_paths_of Example.self "images" true 0).
    reflexivity.
  - apply (add_images_nothing_inserted Example.generate_signature
             Example.image_paths_of Example.self "images" true (-1)).
    + discriminate.
    + right. reflexivity.
    + left. reflexivity.
  - apply (proj2 (proj2 (add_images_nothing_inserted
                           Example.generate_signature Example.image_paths_of
                           Example.self "images" false (-1))
                    ltac:(discriminate) (or_intror eq_refl))
             Example.stored [] eq_refl eq_refl).
Defined.

Lemma init_after_add_images_witness :
  exists self' : SignatureCollection,
    add_images Example.generate_signature Example.image_paths_of Example.self
      "images" true 100 = Ok self' /\
    init (PyCollection (self_collection self')) (PyInt (self_k self'))
      (PyInt (self_N self')) (PyFloat (self_distance_cutoff self'))
    = Ok self'.
Proof.
  destruct (add_images Example.generate_signature Example.image_paths_of
              Example.self "images" true 100) as [self'|e] eqn:Hadd.
  - exists self'. split; [reflexivity|].
    exact (init_after_add_images Example.generate_signature
             Example.image_paths_of Example.self self' "images" true 100
             example_reachable Hadd).
  - vm_compute in Hadd. discriminate Hadd.
Defined.

Lemma add_images_index_names_witness :
  exists (self' : SignatureCollection) (index_names : list string),
    add_images Example.generate_signature Example.image_paths_of Example.self
      "images" true 100 = Ok self' /\
    self_index_names self' = Some index_names /\
    (forall name : string,
       name ∈ index_names <->
       exists i : Z, 0 <= i < 4 /\ name = slot_name i).
Proof.
  destruct (add_images Example.generate_signature Example.image_paths_of
              Example.self "images" true 100) as [self'|e] eqn:Hadd.
  - destruct (add_images_index_names Example.generate_signature
                Example.image_paths_of Example.self self' "images" true 100)
      as (index_names & Hnames & Hslots & _).
    + lia.
    + left. reflexivity.
    + exact Hadd.
    + exists self', index_names. split; [reflexivity|].
      split; [exact Hnames | exact Hslots].
  - vm_compute in Hadd. discriminate Hadd.
Defined.

Lemma add_image_keeps_index_names_witness :
  exists self self' : SignatureCollection,
    init (PyCollection []) (PyInt 3) (PyInt 4) (PyFloat 0) = Ok self /\
    add_image Example.generate_signature self "a.png" = Ok self' /\
    self_index_names self' = self_index_names self /\
    self_collection self' <> [] /\
    forall record : document,
      find_word_matches self' record = Raise AttributeError.
Proof.
  destruct (init (PyCollection []) (PyInt 3) (PyInt 4) (PyFloat 0))
    as [self|e] eqn:Hinit.
  - destruct (add_image Example.generate_signature self "a.png")
      as [self'|e] eqn:Hadd.
    + destruct (add_image_keeps_index_names Example.generate_signature
                  self self' "a.png" Hadd) as (_ & Hnames & Hempty).
      exists self, self'. split; [reflexivity|]. split; [exact Hadd|].
      split; [exact Hnames|].
      exact (Hempty (PyInt 3) (PyInt 4) (PyFloat 0) Hinit).
    + exfalso. unfold init in Hinit.
      destruct (decide (0 < 0)%R) as [Hlt|_]; [lra|].
      simpl in Hinit. injection Hinit as <-.
      vm_compute in Hadd. discriminate Hadd.
  - exfalso. unfold init in Hinit.
    destruct (decide (0 < 0)%R) as [Hlt|_]; [lra|].
    simpl in Hinit. discriminate Hinit.
Defined.

(** ** The candidate query: errors, order, recall *)

Lemma clauses_key_error (record : document) (index_names : list string) :
  Exists (fun name => record !! name = None) index_names ->
  mapM (fun name => v ← getitem record name; Ok (name, v)) index_names
  = Raise KeyError.
Proof.
  unfold getitem.
  induction index_names as [|name rest IH]; intros Hex.
  - inversion Hex.
  - simpl. destruct (record !! name) as [v|] eqn:Hv; simpl; [|reflexivity].
    rewrite IH; [reflexivity|].
    inversion Hex as [? ? Hnone|]; subst; [congruence | assumption].
Qed.

Lemma find_word_matches_returns (self : SignatureCollection)
    (record : document) (index_names : list string) :
  self_index_names self = Some index_names ->
  Forall (fun name => is_Some (record !! name)) index_names ->
  succeeds (find_word_matches self record).
Proof.
  intros Hnames Hall. unfold find_word_matches. rewrite Hnames.
  destruct (mapM_succeeds
              (fun name => v ← getitem record name; Ok (name, v))
              index_names) as [clauses ->].
  - eapply Forall_impl; [exact Hall|]. intros name [v Hv].
    unfold getitem. rewrite Hv. eexists. reflexivity.
  - eexists. reflexivity.
Qed.

Lemma filter_sublist {A : Type} (p : A -> bool) (l : list A) :
  List.filter p l `sublist_of` l.
Proof.
  induction l as [|a l IH]; simpl; [constructor|].
  destruct (p a); [apply sublist_skip | apply sublist_cons]; exact IH.
Qed.

Section QueryFacts.

Variable generate_signature : string -> list Z.

(** X10.  [find_word_matches] returns only once [index_names] is assigned
    and the record holds every indexed field; a missing field raises
    [KeyError].  In particular an object whose [N] is smaller than the
    number of indexed word slots of the collection cannot query it: its
    records lack the higher slots. *)
Theorem find_word_matches_key_error (self : SignatureCollection)
    (record : document) (index_names : list string) :
  self_index_names self = Some index_names ->
  (Forall (fun name => is_Some (record !! name)) index_names ->
   succeeds (find_word_matches self record)) /\
  (Exists (fun name => record !! name = None) index_names ->
   find_word_matches self record = Raise KeyError) /\
  (forall (path : string) (i : Z),
     make_record generate_signature self path = Ok record ->
     slot_name i ∈ index_names -> self_N self <= i ->
     find_word_matches self record = Raise KeyError).
Proof.
  intros Hnames.
  assert (Hkey : Exists (fun name => record !! name = None) index_names ->
                 find_word_matches self record = Raise KeyError).
  { intros Hex. unfold find_word_matches. rewrite Hnames.
    rewrite clauses_key_error by exact Hex. reflexivity. }
  split; [apply find_word_matches_returns; exact Hnames|].
  split; [exact Hkey|].
  intros path i Hrec Hin Hi. apply Hkey.
  apply Exists_exists. exists (slot_name i). split; [exact Hin|].
  destruct (record !! slot_name i) as [v|] eqn:Hv; [|reflexivity].
  exfalso.
  destruct (proj1 (make_record_dom _ _ _ _ (slot_name i) Hrec))
    as [Heq|[Heq|(j & Hj & Heq)]]; [eauto | | |].
  - exact (slot_name_not_path i Heq).
  - exact (slot_name_not_signature i Heq).
  - apply slot_name_inj in Heq. lia.
Qed.

End QueryFacts.

(** X11.  [find_word_matches] loses no candidate and invents none: its
    result is a sub-sequence of the collection, in store order, and holds
    every stored document that agrees with the record on an indexed field. *)
Theorem find_word_matches_recall (self : SignatureCollection)
    (record : document) (docs : list document) :
  find_word_matches self record = Ok docs ->
  docs `sublist_of` self_collection self /\
  forall (d : document) (index_names : list string) (name : string)
         (v : value),
    d ∈ self_collection self ->
    self_index_names self = Some index_names ->
    name ∈ index_names ->
    record !! name = Some v -> d !! name = Some v ->
    d ∈ docs.
Proof.
  intros Hfind. split.
  - unfold find_word_matches in Hfind.
    destruct (self_index_names self); [|discriminate].
    destruct (mapM _ _); [|discriminate].
    simpl in Hfind. injection Hfind as <-. apply filter_sublist.
  - intros d names name v Hd Hnames Hname Hr Hdv.
    apply (find_word_matches_spec _ _ _ _ Hfind). split; [exact Hd|].
    exists names, name, v. auto.
Qed.

Lemma find_word_matches_key_error_witness :
  succeeds (find_word_matches Example.self Example.query) /\
  find_word_matches Example2.narrow Example2.narrow_query = Raise KeyError.
Proof.
  split.
  - apply (find_word_matches_key_error Example.generate_signature
             Example.self Example.query
             (discover_index_names Example.stored) eq_refl).
    vm_compute. repeat constructor; eexists; reflexivity.
  - assert (Hrec : make_record Example.generate_signature Example2.narrow
                     "q.png" = Ok Example2.narrow_query)
      by (vm_compute; reflexivity).
    apply (proj2 (proj2 (find_word_matches_key_error
                           Example.generate_signature Example2.narrow
                           Example2.narrow_query
                           (discover_index_names Example.stored) eq_refl))
             "q.png" 3 Hrec).
    + vm_compute. repeat constructor.
    + vm_compute. discriminate.
Defined.

Lemma find_word_matches_recall_witness :
  Example.stored ∈ [Example.stored].
Proof.
  assert (Hfind : find_word_matches Example.self Example.query
                  = Ok [Example.stored]) by (vm_compute; reflexivity).
  apply (proj2 (find_word_matches_recall Example.self Example.query
                  [Example.stored] Hfind)
           Example.stored (discover_index_names Example.stored)
           "simple_word_0" (VInts [1; -1; 0])).
  - apply list_elem_of_here.
  - reflexivity.
  - vm_compute. repeat constructor.
  - vm_compute. reflexivity.
  - vm_compute. reflexivity.
Defined.

(** ** More on the normalised distance *)


Lemma float_div_nonneg (x y r : R) :
  (0 <= x)%R -> (0 <= y)%R -> float_div x y = Finite r -> (0 <= r)%R.
Proof.
  intros Hx Hy. unfold float_div.
  destruct (decide (y = 0%R)) as [->|Hne].
  - destruct (decide (x = 0%R)); discriminate.
  - intros [= <-]. apply Rmult_le_pos; [exact Hx|].
    left. apply Rinv_0_lt_compat. lra.
Qed.

Lemma row_distance_nonneg (T : dtype) (vec b : list (elt T))
    (d : float64_value) (r : R) :
  row_distance vec b = Ok d -> d = Finite r -> (0 <= r)%R.
Proof.
  unfold row_distance. destruct (broadcast_sub vec b) as [diff|]; [|discriminate].
  simpl. intros [= <-] Hr.
  apply (float_div_nonneg _ _ _ (norm_nonneg T diff)) in Hr; [exact Hr|].
  pose proof (norm_nonneg T vec). pose proof (norm_nonneg T b). lra.
Qed.




Lemma norm_int8_nonzero (v : list Z) :
  Exists (fun z => z <> 0) v -> (0 < norm (T := int8_t) v)%R.
Proof.
  intros Hex. rewrite norm_int8_float. apply norm_nonzero.
  apply Exists_fmap. eapply Exists_impl; [exact Hex|].
  intros z Hz. simpl. apply not_0_IZR. exact Hz.
Qed.






Lemma sum_squares_sub_swap (v b : list R) :
  sum_squares (T := float64) (zip_with Rminus v b)
  = sum_squares (T := float64) (zip_with Rminus b v).
Proof.
  revert b. induction v as [|x v IH]; intros [|y b]; try reflexivity.
  change (zip_with Rminus (x :: v) (y :: b))
    with ((x - y)%R :: zip_with Rminus v b).
  change (zip_with Rminus (y :: b) (x :: v))
    with ((y - x)%R :: zip_with Rminus b v).
  rewrite !sum_squares_cons, IH. simpl. ring.
Qed.

Lemma sum_squares_scalar_swap (x : R) (b : list R) :
  sum_squares (T := float64) ((fun y => sub float64 x y) <$> b)
  = sum_squares (T := float64) ((fun y => sub float64 y x) <$> b).
Proof.
  induction b as [|y b IH]; [reflexivity|].
  rewrite !fmap_cons, !sum_squares_cons, IH. simpl. ring.
Qed.

(** X13.  The normalised distance is symmetric: exchanging the two
    vectors gives the same outcome, whatever their shapes. *)
Theorem row_distance_symmetric (v b : list R) :
  row_distance (T := float64) v b = row_distance (T := float64) b v.
Proof.
  assert (Hden : (norm (T := float64) v + norm (T := float64) b
                  = norm (T := float64) b + norm (T := float64) v)%R)
    by apply Rplus_comm.
  unfold row_distance, broadcast_sub.
  destruct (decide (@length (elt float64) v = @length (elt float64) b))
    as [Heq|Hne];
    destruct (decide (@length (elt float64) b = @length (elt float64) v))
      as [Heq'|Hne'];
    try (exfalso; congruence).
  - cbn [mbind result_bind]. rewrite Hden. do 2 f_equal.
    unfold norm. f_equal. apply sum_squares_sub_swap.
  - destruct v as [|x [|x' v]]; destruct b as [|y [|y' b]];
      try reflexivity; try (exfalso; apply Hne; reflexivity).
    all: cbn [mbind result_bind]; rewrite Hden; do 2 f_equal.
    all: unfold norm; f_equal.
    all: first [apply sum_squares_scalar_swap
               |symmetry; apply sum_squares_scalar_swap].
Qed.

Lemma sum_squares_int8_zero (l : list Z) :
  sum_squares (T := int8_t) l = 0%R -> Forall (fun z => z = 0) l.
Proof.
  induction l as [|x l IH]; intros Hsum; [constructor|].
  rewrite sum_squares_cons in Hsum. simpl as_float in Hsum.
  pose proof (sum_squares_nonneg int8_t l) as Hrest.
  pose proof (Rle_0_sqr (IZR x)) as Hsq. unfold Rsqr in Hsq.
  assert (Hx : (IZR x * IZR x = 0)%R) by lra.
  assert (Hr : sum_squares (T := int8_t) l = 0%R) by lra.
  constructor; [|apply IH; exact Hr].
  apply eq_IZR_R0. apply Rmult_integral in Hx. destruct Hx; assumption.
Qed.

(** In [int8] a difference wraps to [0] only when it is [0]. *)
Lemma int8_sub_zero (x y : Z) :
  Np.is_int8 x -> Np.is_int8 y -> Np.int8 (x - y) = 0 -> x = y.
Proof.
  unfold Np.is_int8, Np.int8. intros Hx Hy Hz.
  pose proof (Z.div_mod (x - y + 128) 256 ltac:(lia)) as Hdm.
  pose proof (Z.mod_pos_bound (x - y + 128) 256 ltac:(lia)) as Hr.
  lia.
Qed.

Lemma zip_sub_int8_zero (v b : list Z) :
  Forall Np.is_int8 v -> Forall Np.is_int8 b -> length v = length b ->
  Forall (fun z => z = 0) (zip_with (sub int8_t) v b) -> v = b.
Proof.
  intros Hv. revert b.
  induction Hv as [|x v Hx _ IH]; intros [|y b] Hb Hlen Hzero;
    try discriminate Hlen; [reflexivity|].
  apply Forall_cons in Hb as [Hy Hb]. injection Hlen as Hlen.
  change (zip_with (sub int8_t) (x :: v) (y :: b))
    with (Np.int8 (x - y) :: zip_with (sub int8_t) v b) in Hzero.
  apply Forall_cons in Hzero as [Hxy Hzero].
  f_equal; [apply int8_sub_zero; assumption | apply IH; assumption].
Qed.

(** X14.  Between two [int8] signatures of the same length, not both zero,
    the normalised distance is [0] exactly when the signatures are equal. *)
Theorem row_distance_zero_iff (v b : list Z) :
  Forall Np.is_int8 v -> Forall Np.is_int8 b ->
  length b = length v ->
  Exists (fun z => z <> 0) v \/ Exists (fun z => z <> 0) b ->
  row_distance (T := int8_t) v b = Ok (Finite 0) <-> v = b.
Proof.
  intros Hv Hb Hlen Hnz.
  assert (Hsum : (0 < norm (T := int8_t) v + norm (T := int8_t) b)%R).
  { pose proof (norm_nonneg int8_t v). pose proof (norm_nonneg int8_t b).
    destruct Hnz as [Hnz|Hnz]; apply norm_int8_nonzero in Hnz; lra. }
  rewrite (row_distance_aligned int8_t) by exact Hlen.
  rewrite float_div_finite by lra. split.
  - intros [= Hzero].
    apply zip_sub_int8_zero; [assumption | assumption | symmetry; exact Hlen |].
    apply sum_squares_int8_zero.
    apply sqrt_eq_0; [apply sum_squares_nonneg|].
    fold (norm (T := int8_t) (zip_with (sub int8_t) v b)).
    apply (Rmult_eq_reg_r (/ (norm (T := int8_t) v + norm (T := int8_t) b)));
      [|apply Rinv_neq_0_compat; lra].
    rewrite Rmult_0_l. exact Hzero.
  - intros <-. rewrite norm_sub_self_int8. do 2 f_equal. apply Rdiv_0_l.
Qed.

Lemma row_distance_zero_iff_witness :
  row_distance (T := int8_t) [3; 4] [3; 4] = Ok (Finite 0) /\
  row_distance (T := int8_t) [3; 4] [3; 5] <> Ok (Finite 0).
Proof.
  assert (Forall Np.is_int8 [3; 4]) as H34
    by (repeat constructor; vm_compute; discriminate).
  assert (Forall Np.is_int8 [3; 5]) as H35
    by (repeat constructor; vm_compute; discriminate).
  assert (Exists (fun z => z <> 0) [3; 4]) as Hnz
    by (apply Exists_cons_hd; discriminate).
  split.
  - apply (row_distance_zero_iff [3; 4] [3; 4] H34 H34 eq_refl (or_introl Hnz)).
    reflexivity.
  - intros Hzero.
    apply (row_distance_zero_iff [3; 4] [3; 5] H34 H35 eq_refl (or_introl Hnz))
      in Hzero.
    discriminate Hzero.
Defined.

(** ** What a query can return *)

Lemma mapM_elem_of {A B : Type} (f : A -> result B) (l : list A) :
  forall r : list B,
    mapM f l = Ok r ->
    forall b : B, b ∈ r -> exists a : A, a ∈ l /\ f a = Ok b.
Proof.
  induction l as [|a l IH]; intros r Hr b Hb; simpl in Hr.
  - injection Hr as <-. inversion Hb.
  - destruct (f a) as [b'|] eqn:Hfa; [|discriminate]. simpl in Hr.
    destruct (mapM f l) as [r'|]; [|discriminate]. simpl in Hr.
    injection Hr as <-. apply elem_of_cons in Hb as [->|Hb].
    + exists a. split; [apply list_elem_of_here | exact Hfa].
    + destruct (IH r' eq_refl b Hb) as (a' & Ha' & Hfa').
      exists a'. split; [apply list_elem_of_further, Ha' | exact Hfa'].
Qed.

Section MatchFacts.

Variable generate_signature : string -> list Z.

Lemma candidate_distances_nonneg (self : SignatureCollection) (path : string)
    (scored : list (float64_value * value)) (x : R) (p : value) :
  candidate_distances generate_signature self path = Ok scored ->
  (Finite x, p) ∈ scored -> (0 <= x)%R.
Proof.
  unfold candidate_distances. intros Hscored Hin.
  destruct (make_record _ _ _) as [record|]; [|discriminate].
  cbn [mbind result_bind] in Hscored.
  destruct (find_word_matches _ _) as [curs|]; [|discriminate].
  cbn [mbind result_bind] in Hscored.
  destruct (list_cursor self curs) as [t|]; [|discriminate].
  cbn [mbind result_bind] in Hscored.
  destruct (mapM (fun x : document => getitem x "signature") t)
    as [sig_fields|]; [|discriminate]. cbn [mbind result_bind] in Hscored.
  destruct (signature_array _) as [sigs|]; [|discriminate]. cbn [mbind result_bind] in Hscored.
  destruct (mapM (fun x : document => getitem x "path") t)
    as [paths|]; [|discriminate]. cbn [mbind result_bind] in Hscored.
  destruct (getitem record "signature") as [query_field|]; [|discriminate].
  cbn [mbind result_bind] in Hscored. destruct query_field as [s|l]; [discriminate|].
  cbn [mbind result_bind] in Hscored.
  destruct (normalized_distance _ _) as [d|] eqn:Hd; [|discriminate].
  cbn [mbind result_bind] in Hscored. injection Hscored as <-.
  apply list_elem_of_In, in_combine_l, list_elem_of_In in Hin.
  destruct (mapM_elem_of _ _ _ Hd _ Hin) as (b & _ & Hb).
  apply (row_distance_nonneg _ _ _ _ x Hb). reflexivity.
Qed.

(** X15.  Every match that [find_matches] returns carries a real distance
    that is at least [0] and strictly below [distance_cutoff].  With a
    cutoff of [0], which the constructor accepts, no query returns a match,
    not even for the stored image itself. *)
Theorem find_matches_distances (self : SignatureCollection) (path : string)
    (matches : list (float64_value * value)) :
  find_matches generate_signature self path = Ok matches ->
  Forall (fun m => exists x : R,
            m.1 = Finite x /\ (0 <= x < self_distance_cutoff self)%R)
    matches /\
  ((self_distance_cutoff self <= 0)%R -> matches = []).
Proof.
  unfold find_matches. intros Hfm.
  destruct (candidate_distances _ _ _) as [scored|] eqn:Hscored;
    [|discriminate].
  simpl in Hfm. injection Hfm as <-.
  assert (Hall : Forall (fun m => exists x : R,
                   m.1 = Finite x /\ (0 <= x < self_distance_cutoff self)%R)
                   (List.filter
                      (fun dp => bool_decide
                                   (float_lt dp.1 (self_distance_cutoff self)))
                      scored)).
  { apply Forall_forall. intros [d p] Hin.
    apply list_elem_of_In, filter_In in Hin as [Hin Hlt].
    apply bool_decide_eq_true in Hlt. simpl in Hlt.
    destruct d as [x| |]; try contradiction.
    exists x. split; [reflexivity|]. split; [|exact Hlt].
    apply (candidate_distances_nonneg self path scored x p Hscored).
    apply list_elem_of_In. exact Hin. }
  split; [exact Hall|].
  intros Hcut. destruct (List.filter _ scored) as [|m matches]; [reflexivity|].
  apply Forall_cons in Hall as [(x & _ & Hx) _]. lra.
Qed.

End MatchFacts.

Lemma strict_candidate_distances :
  candidate_distances Example.generate_signature Example2.strict "q.png"
  = Ok [(Finite 0, VStr "a.png")].
Proof.
  set (q := Np.int8 <$> Example.signature).
  transitivity
    (Ok (A := list (float64_value * value))
       [(float_div (norm (T := int8_t) (zip_with (sub int8_t) q q))
           (norm (T := int8_t) q + norm (T := int8_t) q), VStr "a.png")]);
    [reflexivity|].
  assert (Hq : (0 < norm (T := int8_t) q)%R).
  { replace q with [2; -1; 0; 3; -4; 1; 0; 2] by reflexivity.
    apply sqrt_lt_R0. simpl. lra. }
  rewrite norm_sub_self_int8, float_div_finite by lra.
  rewrite Rdiv_0_l. reflexivity.
Qed.

Lemma find_matches_distances_witness :
  Forall (fun m : float64_value * value =>
            exists x : R, m.1 = Finite x /\ (0 <= x < 6 / 10)%R)
    [(Finite 0, VStr "a.png")] /\
  find_matches Example.generate_signature Example2.strict "q.png" = Ok [].
Proof.
  split.
  - exact (proj1 (find_matches_distances Example.generate_signature
                    Example.self "q.png" [(Finite 0, VStr "a.png")]
                    example_find_matches)).
  - destruct (find_matches Example.generate_signature Example2.strict "q.png")
      as [matches|e] eqn:Hfm.
    + f_equal.
      apply (proj2 (find_matches_distances Example.generate_signature
                      Example2.strict "q.png" matches Hfm)).
      simpl. lra.
    + exfalso. unfold find_matches in Hfm.
      rewrite strict_candidate_distances in Hfm. discriminate Hfm.
Defined.

(** ** Finding a stored image again *)

Section SelfMatch.

Variable generate_signature : string -> list Z.

(** X16.  An image that was stored is found again.  When the object has
    at least one index name, all of them word slots, and the collection
    holds the record of an image with the signature of the query (the
    signature not all zero, the cutoff positive, every stored document with
    a path and a signature of that length), [find_matches] returns and its
    result contains that image at distance [0]. *)
Theorem find_matches_finds_stored (self : SignatureCollection)
    (path path' : string) (doc : document) (index_names : list string) :
  self_index_names self = Some index_names ->
  index_names <> [] ->
  (forall name : string, name ∈ index_names ->
     exists i : Z, 0 <= i < self_N self /\ name = slot_name i) ->
  generate_signature path' = generate_signature path ->
  make_record generate_signature self path' = Ok doc ->
  doc ∈ self_collection self ->
  Forall (fun d =>
            is_Some (d !! "path") /\
            exists l, d !! "signature" = Some (VInts l) /\
                      length l = length (generate_signature path))
    (self_collection self) ->
  Exists (fun z => Np.int8 z <> 0) (generate_signature path) ->
  (0 < self_distance_cutoff self)%R ->
  exists matches : list (float64_value * value),
    find_matches generate_signature self path = Ok matches /\
    (Finite 0, VStr path') ∈ matches.
Proof.
  intros Hnames Hne Hslots Hsame Hdoc Hstored Hwf Hnz Hcut.
  destruct (make_record_words _ _ _ _ Hdoc) as [words Hwords'].
  pose proof Hwords' as Hwords. rewrite Hsame in Hwords.
  destruct (make_record_ok generate_signature self path words Hwords)
    as [record Hrec].
  destruct (get_words_length _ _ _ _ Hwords) as [HN Hlen].
  assert (Hslot : forall i : Z, 0 <= i < self_N self ->
            exists v : value,
              record !! slot_name i = Some v /\ doc !! slot_name i = Some v).
  { intros i Hi. replace i with (Z.of_nat (Z.to_nat i)) by lia.
    rewrite (make_record_slot _ _ _ _ _ _ Hwords Hrec) by lia.
    rewrite (make_record_slot _ _ _ _ _ _ Hwords' Hdoc) by lia.
    destruct (lookup_lt_is_Some_2 (max_contrast words) (Z.to_nat i))
      as [w ->]; [|simpl; eauto].
    rewrite max_contrast_rows, length_fmap. lia. }
  destruct (find_word_matches_returns self record index_names Hnames)
    as [t Hfind].
  { apply Forall_forall. intros name Hname.
    destruct (Hslots name Hname) as (i & Hi & ->).
    destruct (Hslot i Hi) as (v & Hv & _). eauto. }
  assert (Hin : doc ∈ t).
  { apply (find_word_matches_spec _ _ _ _ Hfind). split; [exact Hstored|].
    destruct index_names as [|name0 rest]; [contradiction|].
    destruct (Hslots name0 (list_elem_of_here _ _)) as (i & Hi & ->).
    destruct (Hslot i Hi) as (v & Hv & Hdv).
    exists (slot_name i :: rest), (slot_name i), v.
    split; [exact Hnames|]. split; [apply list_elem_of_here | auto]. }
  assert (Hsub : Forall (fun d =>
            is_Some (d !! "path") /\
            exists l, d !! "signature" = Some (VInts l) /\
                      length l = length (generate_signature path)) t).
  { apply Forall_forall. intros d Hd.
    apply (find_word_matches_spec _ _ _ _ Hfind) in Hd as [Hd _].
    rewrite Forall_forall in Hwf. apply Hwf. exact Hd. }
  assert (Hnonempty : t <> []).
  { intros ->. inversion Hin. }
  pose proof (candidate_distances_total generate_signature self path record t
                Hrec Hfind Hnonempty Hsub) as Hscored.
  destruct (find_matches_filter generate_signature self path _ Hscored)
    as (matches & Hok & Hmem).
  exists matches. split; [exact Hok|]. apply Hmem. split.
  - apply list_elem_of_fmap. exists doc. split; [|exact Hin].
    unfold candidate_score, doc_signature, doc_path.
    rewrite (make_record_signature _ _ _ _ Hdoc).
    rewrite (make_record_path _ _ _ _ Hdoc), Hsame. simpl.
    rewrite norm_sub_self_int8.
    assert (0 < norm (T := int8_t) (Np.int8 <$> generate_signature path))%R.
    { apply norm_int8_nonzero, Exists_fmap. exact Hnz. }
    rewrite float_div_finite by lra. rewrite Rdiv_0_l. reflexivity.
  - simpl. exact Hcut.
Qed.

End SelfMatch.

Lemma find_matches_finds_stored_witness :
  exists matches : list (float64_value * value),
    find_matches Example.generate_signature Example.self "q.png" = Ok matches /\
    (Finite 0, VStr "a.png") ∈ matches.
Proof.
  assert (Hdoc : make_record Example.generate_signature Example.self "a.png"
                 = Ok Example.stored) by (vm_compute; reflexivity).
  apply (find_matches_finds_stored Example.generate_signature Example.self
           "q.png" "a.png" Example.stored
           (discover_index_names Example.stored)).
  - reflexivity.
  - vm_compute. discriminate.
  - intros name Hname.
    apply (make_record_index_names Example.generate_signature Example.self
             "a.png" Example.stored name Hdoc). exact Hname.
  - reflexivity.
  - exact Hdoc.
  - apply list_elem_of_here.
  - apply Forall_cons. split; [|apply Forall_nil; exact I].
    split; [eexists; reflexivity|].
    exists Example.signature. split; reflexivity.
  - apply Exists_cons_hd. vm_compute. discriminate.
  - simpl. lra.
Defined.

(** X17.  On an object with at least one index name, a query that shares
    no word with any stored document does not return an empty result:
    [find_matches] raises [ValueError].  The empty list of candidates makes
    an empty one-dimensional array of signatures, which the subtraction in
    [normalized_distance] cannot broadcast against the query signature (for
    a signature of one element the subtraction passes and the norm along
    [axis=1] is refused). *)
Theorem find_matches_without_candidates
    (generate_signature : string -> list Z) (self : SignatureCollection)
    (path : string) (record : document) (index_names : list string) :
  make_record generate_signature self path = Ok record ->
  self_index_names self = Some index_names ->
  index_names <> [] ->
  (forall (d : document) (name : string),
     d ∈ self_collection self ->
     name ∈ index_names -> is_Some (record !! name) ->
     d !! name <> record !! name) ->
  succeeds (find_word_matches self record) ->
  find_word_matches self record = Ok [] /\
  find_matches generate_signature self path = Raise ValueError.
Proof.
  intros Hrec Hnames Hne Hdiffer [t Hfind].
  assert (t = []) as ->.
  { destruct t as [|d t]; [reflexivity|]. exfalso.
    destruct (proj1 (find_word_matches_spec self record (d :: t) d Hfind))
      as [Hd (names & name & v & Hnames' & Hname & Hr & Hdv)];
      [apply list_elem_of_here|].
    rewrite Hnames in Hnames'. injection Hnames' as <-.
    apply (Hdiffer d name Hd Hname); [eauto | congruence]. }
  split; [exact Hfind|].
  apply (find_matches_no_candidates generate_signature self path record
           index_names Hrec Hnames Hne).
  exact Hfind.
Qed.

Lemma find_matches_without_candidates_witness :
  find_word_matches Example.self Example2.query = Ok [] /\
  find_matches Example2.generate_signature Example.self "z.png"
  = Raise ValueError.
Proof.
  assert (Hrec : make_record Example2.generate_signature Example.self "z.png"
                 = Ok Example2.query) by (vm_compute; reflexivity).
  assert (Hstored : make_record Example.generate_signature Example.self "a.png"
                    = Ok Example.stored) by (vm_compute; reflexivity).
  apply (find_matches_without_candidates Example2.generate_signature
           Example.self "z.png" Example2.query
           (discover_index_names Example.stored) Hrec eq_refl).
  - intros Hempty.
    assert (slot_name 0 ∈ discover_index_names Example.stored) as Hin.
    { apply (make_record_index_names Example.generate_signature Example.self
               "a.png" Example.stored (slot_name 0) Hstored).
      exists 0. split; [|reflexivity].
      change (self_N Example.self) with 4. lia. }
    rewrite Hempty in Hin. inversion Hin.
  - intros d name Hd Hname _.
    change (d ∈ [Example.stored]) in Hd.
    apply list_elem_of_singleton in Hd. subst d.
    apply (make_record_index_names Example.generate_signature Example.self
             "a.png" Example.stored name Hstored) in Hname
      as (i & Hi & ->).
    change (self_N Example.self) with 4 in Hi.
    assert (Hcases : i = 0 \/ i = 1 \/ i = 2 \/ i = 3) by lia.
    destruct Hcases as [-> | [-> | [-> | ->]]]; vm_compute; discriminate.
  - exists []. vm_compute. reflexivity.
Defined.

(** ** Small signatures: the [int8] distance is the real one *)



(** ** The discovery rule is a substring test *)

Lemma prefix_app (sub s : string) :
  String.prefix sub s = true <-> exists post : string, s = sub +:+ post.
Proof.
  revert s. induction sub as [|a sub IH]; intros s.
  - destruct s; simpl; split; eauto.
  - destruct s as [|c s]; simpl.
    + split; [discriminate | intros [post [=]]].
    + destruct (ascii_dec a c) as [->|Hne].
      * rewrite IH. split.
        -- intros [post ->]. exists post. reflexivity.
        -- intros [post [= ->]]. exists post. reflexivity.
      * split; [discriminate|]. intros [post [= -> _]]. contradiction.
Qed.

Lemma str_find_from_spec (sub s : string) :
  forall i : Z,
    0 <= i ->
    str_find_from sub s i > -1 <->
    exists pre post : string, s = pre +:+ sub +:+ post.
Proof.
  induction s as [|c s IH]; intros i Hi.
  - change (str_find_from sub "" i)
      with (if String.prefix sub "" then i else -1).
    destruct (String.prefix sub "") eqn:Hp.
    + split; [|intros _; lia]. intros _. apply prefix_app in Hp as [post Hpost].
      exists "", post. exact Hpost.
    + split; [intros Hgt; lia|]. intros (pre & post & Heq). exfalso.
      destruct pre; [|discriminate Heq]. simpl in Heq.
      assert (String.prefix sub "" = true) by (apply prefix_app; eauto).
      congruence.
  - change (str_find_from sub (String c s) i)
      with (if String.prefix sub (String c s) then i
            else str_find_from sub s (i + 1)).
    destruct (String.prefix sub (String c s)) eqn:Hp.
    + split; [|intros _; lia]. intros _. apply prefix_app in Hp as [post Hpost].
      exists "", post. exact Hpost.
    + rewrite IH by lia. split.
      * intros (pre & post & ->). exists (String c pre), post. reflexivity.
      * intros (pre & post & Heq). destruct pre as [|c' pre].
        -- exfalso. simpl in Heq.
           assert (String.prefix sub (String c s) = true)
             by (apply prefix_app; eauto).
           congruence.
        -- injection Heq as -> ->. eauto.
Qed.

(** X19.  The index-discovery rule of [__init__] and [add_images] keeps
    a field of the first document exactly when ['simple'] occurs somewhere
    in its name, not only at its start, and lists each such field once. *)
Theorem discover_index_names_substring (doc : document) :
  (forall name : string,
     name ∈ discover_index_names doc <->
     is_Some (doc !! name) /\
     exists pre post : string, name = pre +:+ "simple" +:+ post) /\
  NoDup (discover_index_names doc).
Proof.
  split.
  - intros name. rewrite elem_of_discover_index_names.
    unfold str_find. rewrite str_find_from_spec by lia. reflexivity.
  - unfold discover_index_names, keys.
    apply (sublist_NoDup _ (fst <$> map_to_list doc));
      [apply NoDup_fst_map_to_list | apply filter_sublist].
Qed.
